(** * mtk-log-util: a shallow embedding of [logutil.py]

    The script shells out to mtkclient, reads the dump it produced, scans
    it for printable text and writes that text to the output file.  The
    embedding has three layers:

    - [Regex]: the fragment of Python's [re] that the script uses
      (sequences of quantified character classes, one capture group),
      with the matching order of the backtracking engine and the
      scanning loop of [re.findall];
    - [IO]: programs as trees of interactions with the outside world
      (logger, console, child process, temporary directory, files),
      run against an arbitrary environment and recorded as a trace;
    - [LogUtil]: the functions of [logutil.py], one definition each.

    A [str] is a [string] whose characters are code points below 256; a
    [bytes] is a list of bytes. *)

From Stdlib Require Import List Arith Lia Bool ZArith NArith Sorted.
From Stdlib Require Import Ascii String Strings.Byte DecimalString.
Import ListNotations.

Set Implicit Arguments.

(** ** The regular expressions of the script *)

Module Regex.

Section Engine.

(** The engine is shared by [bytes] patterns (characters are bytes) and
  [str] patterns (characters are code points below 256). *)
Variable C : Type.

(** One pattern item: a character class under a greedy quantifier
  [{rmin,rmax}] ([rmax = None] is unbounded); [grp] marks the item as
  the pattern's capture group. *)
Record atom : Type := Atom {
cls  : C -> bool;
rmin : nat;
rmax : option nat;
grp  : bool
}.

Definition pattern := list atom.

(** The number of leading characters of [s] that are in class [f], cut
  at [limit]: what a greedy quantifier consumes first. *)
Fixpoint count_prefix (f : C -> bool) (limit : option nat) (s : list C) : nat :=
match limit with
| Some 0 => 0
| _ =>
  match s with
  | c :: s' =>
    if f c then S (count_prefix f (option_map pred limit) s') else 0
  | [] => 0
  end
end.

(** Backtracking over the repetition count: try [k], then [k - 1], ...
  down to [lo]; the first count whose continuation succeeds wins. *)
Fixpoint backtrack (R : Type) (f : nat -> option R) (lo k : nat) : option R :=
if k <? lo then None
else match f k with
     | Some r => Some r
     | None => match k with
               | 0 => None
               | S k' => backtrack f lo k'
               end
     end.

(** A match attempt anchored at the head of [s].  [consumed] counts the
  characters taken so far; the result is the length of the match and
  the text of the capture group.  With [must_advance] an empty match
  is refused at the very end of the pattern, so that the engine
  backtracks into a non-empty one if there is any. *)
Fixpoint match_here (p : pattern) (must_advance : bool) (consumed : nat)
       (s : list C) : option (nat * option (list C)) :=
match p with
| [] =>
  if must_advance && (consumed =? 0) then None else Some (consumed, None)
| a :: p' =>
  backtrack
    (fun k =>
       match match_here p' must_advance (consumed + k) (skipn k s) with
       | Some (n, g) => Some (n, if grp a then Some (firstn k s) else g)
       | None => None
       end)
    (rmin a)
    (count_prefix (cls a) (rmax a) s)
end.

(** [re.search]: the leftmost position at which an attempt succeeds.
  The result is (start, length, group). *)
Fixpoint search_from (p : pattern) (pos : nat) (s : list C)
: option (nat * nat * option (list C)) :=
match match_here p false 0 s with
| Some (n, g) => Some (pos, n, g)
| None =>
  match s with
  | [] => None
  | _ :: s' => search_from p (S pos) s'
  end
end.

Definition search (p : pattern) (s : list C) := search_from p 0 s.

(** What the scanning loop of [findall] does at one position: the
  lengths of the matches that start here, and the number of following
  positions that lie inside the last of them.  After an empty match
  the loop retries at the same position with [must_advance]. *)
Definition at_position (p : pattern) (skip : nat) (s : list C) : list nat * nat :=
match skip with
| S k => ([], k)
| 0 =>
  match match_here p false 0 s with
  | None => ([], 0)
  | Some (S n, _) => ([S n], n)
  | Some (0, _) =>
    match match_here p true 0 s with
    | Some (S n', _) => ([0; S n'], n')
    | _ => ([0], 0)
    end
  end
end.

(** The spans (start, length) of the matches [findall] reports, in the
  order it reports them. *)
Fixpoint scan (p : pattern) (skip pos : nat) (s : list C) : list (nat * nat) :=
let '(here, skip') := at_position p skip s in
map (fun n => (pos, n)) here ++
match s with
| [] => []
| _ :: s' => scan p skip' (S pos) s'
end.

Definition spans (p : pattern) (s : list C) : list (nat * nat) := scan p 0 0 s.

Definition slice (s : list C) (span : nat * nat) : list C :=
firstn (snd span) (skipn (fst span) s).

(** [re.findall] for a pattern without capture group: the matched
  texts. *)
Definition findall (p : pattern) (s : list C) : list (list C) :=
map (slice s) (spans p s).

End Engine.

(** Character classes. *)

Definition in_range (lo hi n : N) : bool := (lo <=? n)%N && (n <=? hi)%N.

(** [[\x20-\x7E]] over bytes. *)
Definition printable (b : byte) : bool := in_range 0x20 0x7E (Byte.to_N b).

(** [rb'[\x20-\x7E]{' + str(min_length).encode() + rb',}'] *)
Definition printable_run (min_length : nat) : pattern byte :=
  [Atom printable min_length None false].

Definition code (c : ascii) : N := N_of_ascii c.

(** Case folding on the ASCII letters, as [re.IGNORECASE] does on text
    that decoded from ASCII. *)
Definition lower (n : N) : N := if in_range 65 90 n then (n + 32)%N else n.

(** A literal character under [re.IGNORECASE]. *)
Definition lit_i (c : ascii) : atom ascii :=
  Atom (fun x => (lower (code x) =? lower (code c))%N) 1 (Some 1) false.

Definition literal_i (s : string) : pattern ascii :=
  map lit_i (list_ascii_of_string s).

(** [\s] on a [str] pattern, which is [str.isspace()]: among the code
    points below 256 these are 9-13, 28-32, 0x85 and 0xA0. *)
Definition is_space (c : ascii) : bool :=
  in_range 9 13 (code c) || in_range 28 32 (code c)
  || (code c =? 0x85)%N || (code c =? 0xA0)%N.

(** [[:\s]] *)
Definition colon_or_space (c : ascii) : bool :=
  (code c =? 58)%N || is_space c.

(** [[0-9a-fA-F]] *)
Definition is_hex (c : ascii) : bool :=
  in_range 48 57 (code c) || in_range 97 102 (code c) || in_range 65 70 (code c).

(** [r'<key>[:\s]*0x([0-9a-fA-F]+)'] under [re.IGNORECASE]. *)
Definition key_hex (key : string) : pattern ascii :=
  literal_i key ++
  [Atom colon_or_space 0 None false] ++
  literal_i "0x" ++
  [Atom is_hex 1 None true].

End Regex.

(** ** Programs that talk to the outside world *)

Module IO.

Definition bytes := list byte.

Inductive level : Type := INFO | WARNING | ERROR.

(** How a child process ends: it ran, printed [lines] on its merged
    stdout/stderr and exited with [code]; or [Popen] raised [OSError].
    The lines are text: [Popen(text=True)] has decoded them.  A child
    that never ends, or whose output does not decode (the script has no
    handler for [UnicodeDecodeError] and stops with a traceback), is not
    among these answers. *)
Inductive proc_result : Type :=
| Exited (lines : list string) (code : Z)
| LaunchError (err : string).

(** A program is a tree: each node is one request to the world, each
    branch the continuation for one possible answer.  [OSError] is an
    answer ([inl err] for a read, [Some err] for a write, [LaunchError]
    for a process) wherever the script catches it.  Creating and
    removing the temporary directory is taken to succeed: the script has
    no handler there. *)
Inductive io (A : Type) : Type :=
| Ret (a : A)
| Log (l : level) (line : string) (k : io A)
| Print (line : string) (k : io A)
| Popen (cmd : string) (k : proc_result -> io A)
| MkTemp (k : string -> io A)
| RmTemp (dir : string) (k : io A)
| ReadFile (path : string) (k : string + bytes -> io A)
| WriteFile (path : string) (content : string) (k : option string -> io A).

Arguments Ret {A} a.
Arguments MkTemp {A} k.

Fixpoint bind (A B : Type) (p : io A) (f : A -> io B) : io B :=
  match p with
  | Ret a => f a
  | Log l m k => Log l m (bind k f)
  | Print m k => Print m (bind k f)
  | Popen cmd k => Popen cmd (fun r => bind (k r) f)
  | MkTemp k => MkTemp (fun d => bind (k d) f)
  | RmTemp d k => RmTemp d (bind k f)
  | ReadFile path k => ReadFile path (fun r => bind (k r) f)
  | WriteFile path c k => WriteFile path c (fun r => bind (k r) f)
  end.

Declare Scope io_scope.
Delimit Scope io_scope with io.
Bind Scope io_scope with io.

Notation "x <- p ;; q" := (bind p (fun x => q))
  (at level 61, p at next level, right associativity) : io_scope.
Notation "' pat <- p ;; q" := (bind p (fun x => let 'pat := x in q))
  (at level 61, pat pattern, p at next level, right associativity) : io_scope.
Notation "p ;; q" := (bind p (fun _ => q))
  (at level 61, right associativity) : io_scope.

(** What an observer of one run sees: every request with its answer. *)
Inductive event : Type :=
| EvLog (l : level) (line : string)
| EvPrint (line : string)
| EvPopen (cmd : string) (r : proc_result)
| EvMkTemp (dir : string)
| EvRmTemp (dir : string)
| EvRead (path : string) (r : string + bytes)
| EvWrite (path : string) (content : string) (r : option string).

Definition trace := list event.

(** The world: a state of type [W] and its answers to the requests. *)
Record env (W : Type) : Type := Env {
  popen      : string -> W -> proc_result * W;
  mktemp     : W -> string * W;
  rmtemp     : string -> W -> W;
  read_file  : string -> W -> string + bytes;
  write_file : string -> string -> W -> option string * W
}.

Section Run.

Variable W : Type.
Variable E : env W.

Fixpoint run (A : Type) (p : io A) (w : W) : A * W * trace :=
match p with
| Ret a => (a, w, [])
| Log l m k =>
  let '(a, w', t) := run k w in (a, w', EvLog l m :: t)
| Print m k =>
  let '(a, w', t) := run k w in (a, w', EvPrint m :: t)
| Popen cmd k =>
  let '(r, w1) := popen E cmd w in
  let '(a, w', t) := run (k r) w1 in (a, w', EvPopen cmd r :: t)
| MkTemp k =>
  let '(d, w1) := mktemp E w in
  let '(a, w', t) := run (k d) w1 in (a, w', EvMkTemp d :: t)
| RmTemp d k =>
  let '(a, w', t) := run k (rmtemp E d w) in (a, w', EvRmTemp d :: t)
| ReadFile path k =>
  let r := read_file E path w in
  let '(a, w', t) := run (k r) w in (a, w', EvRead path r :: t)
| WriteFile path c k =>
  let '(r, w1) := write_file E path c w in
  let '(a, w', t) := run (k r) w1 in (a, w', EvWrite path c r :: t)
end.

Definition result (A : Type) (p : io A) (w : W) : A := fst (fst (run p w)).
Definition world_after (A : Type) (p : io A) (w : W) : W := snd (fst (run p w)).
Definition events (A : Type) (p : io A) (w : W) : trace := snd (run p w).

End Run.

(** [emits P p]: whatever the world answers, every event of [p]
    satisfies [P]. *)
Inductive emits (P : event -> Prop) (A : Type) : io A -> Prop :=
| emits_Ret a : emits P (Ret a)
| emits_Log l m k :
    P (EvLog l m) -> emits P k -> emits P (Log l m k)
| emits_Print m k :
    P (EvPrint m) -> emits P k -> emits P (Print m k)
| emits_Popen cmd k :
    (forall r, P (EvPopen cmd r)) -> (forall r, emits P (k r)) ->
    emits P (Popen cmd k)
| emits_MkTemp k :
    (forall d, P (EvMkTemp d)) -> (forall d, emits P (k d)) ->
    emits P (MkTemp k)
| emits_RmTemp d k :
    P (EvRmTemp d) -> emits P k -> emits P (RmTemp d k)
| emits_ReadFile path k :
    (forall r, P (EvRead path r)) -> (forall r, emits P (k r)) ->
    emits P (ReadFile path k)
| emits_WriteFile path c k :
    (forall r, P (EvWrite path c r)) -> (forall r, emits P (k r)) ->
    emits P (WriteFile path c k).

(** Classes of events. *)
Definition is_warning (e : event) : bool :=
  match e with EvLog WARNING _ => true | _ => false end.
Definition is_popen (e : event) : bool :=
  match e with EvPopen _ _ => true | _ => false end.
Definition is_write (e : event) : bool :=
  match e with EvWrite _ _ _ => true | _ => false end.
Definition is_mktemp (e : event) : bool :=
  match e with EvMkTemp _ => true | _ => false end.

(** The child processes of a run, in order. *)
Fixpoint commands (t : trace) : list (string * proc_result) :=
  match t with
  | [] => []
  | EvPopen cmd r :: t' => (cmd, r) :: commands t'
  | _ :: t' => commands t'
  end.

End IO.

(** ** logutil.py *)

Module LogUtil.

Import Regex IO.
Local Open Scope string_scope.
Local Open Scope io_scope.

(** *** Python values *)

(** [str | None] in a boolean context: [None] and [''] are false. *)
Definition truthy (o : option string) : bool :=
  match o with
  | Some (String _ _) => true
  | _ => false
  end.

(** [x or y] *)
Definition py_or (x y : option string) : option string :=
  if truthy x then x else y.

(** [f'{x}'] and [%s] for a [str | None]. *)
Definition fmt (o : option string) : string :=
  match o with
  | Some s => s
  | None => "None"
  end.

(** [%s] for an [int]. *)
Definition fmt_int (z : Z) : string := NilZero.string_of_int (Z.to_int z).

Definition newline : string := String (ascii_of_nat 10) EmptyString.

(** [sep.join(lines)] *)
Definition join (sep : string) (lines : list string) : string :=
  String.concat sep lines.

(** [line.rstrip()]: the line without its trailing white space
    ([str.isspace()]). *)
Definition rstrip (line : string) : string :=
  let fix drop (l : list ascii) : list ascii :=
    match l with
    | c :: l' => if is_space c then drop l' else l
    | [] => []
    end in
  string_of_list_ascii (rev (drop (rev (list_ascii_of_string line)))).

(** [b.decode('ascii')]; [None] is [UnicodeDecodeError]. *)
Definition decode_ascii (b : bytes) : option string :=
  if forallb (fun c => (Byte.to_N c <? 128)%N) b
  then Some (string_of_list_byte b)
  else None.

(** A [pathlib.Path], kept as the text [str()] gives for it. *)
Definition path := string.

(** *** Global configuration variables *)

Definition MTK_CLIENT_CMD : string := "python mtkclient/mtk.py".
Definition MTK_CLIENT_ARGS : string := EmptyString.
Definition PSTORE_ADDRESS : string := "0x48090000".
Definition PSTORE_SIZE : string := "0xe0000".

(** *** setup_logging

    One stream handler at level INFO whose formatter puts [[mtklogs] ]
    before the message: every [logger.info], [.warning] and [.error]
    writes one such line. *)
Definition log (l : level) (msg : string) : io unit :=
  Log l ("[mtklogs] " ++ msg) (Ret tt).

(** *** run_command *)

Fixpoint stream_output (lines : list string) : io unit :=
  match lines with
  | [] => Ret tt
  | line :: rest => Print ("[mtkclient] " ++ rstrip line) (stream_output rest)
  end.

Definition run_command (cmd : string) : io bool :=
  log INFO ("Executing command: " ++ cmd) ;;
  Popen cmd (fun r =>
    match r with
    | Exited lines return_code =>
      stream_output lines ;;
      if (return_code =? 0)%Z then Ret true
      else
        log ERROR ("Command failed with return code " ++ fmt_int return_code) ;;
        Ret false
    | LaunchError error =>
      log ERROR ("Exception while running command: " ++ error) ;;
      Ret false
    end).

(** *** extract_ascii_strings *)

Definition ascii_strings (min_length : nat) (data : bytes) : list bytes :=
  findall (printable_run min_length) data.

Fixpoint decode_all (strings : list bytes) : list string :=
  match strings with
  | [] => []
  | s :: rest =>
    match decode_ascii s with
    | Some decoded => decoded :: decode_all rest
    | None => decode_all rest
    end
  end.

Definition header (filename : string) : string :=
  "=== ASCII Strings from " ++ filename ++ " ===".

Definition output_lines (filename : string) (min_length : nat) (data : bytes)
  : list string :=
  header filename :: decode_all (ascii_strings min_length data).

Definition extract_ascii_strings (output_file : path) (filename : string)
           (min_length : nat) : io unit :=
  ReadFile filename (fun r =>
    match r with
    | inr data =>
      WriteFile output_file (join newline (output_lines filename min_length data))
        (fun w =>
           match w with
           | None => log INFO ("ASCII strings saved to " ++ output_file)
           | Some error =>
             log ERROR ("Error processing file " ++ filename ++ ": " ++ error)
           end)
    | inl error =>
      log ERROR ("Error processing file " ++ filename ++ ": " ++ error)
    end).

(** *** extract_with_mtkclient

    The two literals the callers pass as [extraction_type]. *)
Inductive extraction : Type := expdb | pstore.

Definition mtkclient_cmd (extraction_type : extraction) (output_filename : string)
           (address size : option string) (da : bool) : string :=
  match extraction_type with
  | expdb =>
    MTK_CLIENT_CMD ++ " r expdb " ++ output_filename ++ " " ++ MTK_CLIENT_ARGS
  | pstore =>
    (MTK_CLIENT_CMD ++ " " ++ (if da then "da" else EmptyString) ++ " peek "
       ++ fmt address ++ " " ++ fmt size ++ " ")
    ++ ("--filename " ++ output_filename ++ " " ++ MTK_CLIENT_ARGS)
  end.

Definition extract_with_mtkclient (extraction_type : extraction)
           (output_filename : string) (address size : option string) (da : bool)
  : io bool :=
  run_command (mtkclient_cmd extraction_type output_filename address size da).

(** [with tempfile.TemporaryDirectory() as tmp: body]: the directory is
    removed when the block is left, also through a [return]. *)
Definition with_tempdir (A : Type) (body : string -> io A) : io A :=
  MkTemp (fun tmp => a <- body tmp ;; RmTemp tmp (Ret a)).

(** *** detect_pstore_addr *)

(** [re.search(r'<key>[:\s]*0x([0-9a-fA-F]+)', decoded, re.IGNORECASE)]
    and, on a match, [f'0x{match.group(1)}']. *)
Definition find_hex (key decoded : string) : option string :=
  match search (key_hex key) (list_ascii_of_string decoded) with
  | Some (_, _, g) => Some ("0x" ++ fmt (option_map string_of_list_ascii g))
  | None => None
  end.

(** The loop of [_find_pstore_config_in_data].  The nested function does
    nothing to the world but log; the loop returns its two variables and
    the messages it logged, in order. *)
Fixpoint find_loop (strings : list bytes) (pstore_addr pstore_size : option string)
  : (option string * option string) * list string :=
  match strings with
  | [] => ((pstore_addr, pstore_size), [])
  | s :: rest =>
    match decode_ascii s with
    | None => find_loop rest pstore_addr pstore_size
    | Some decoded =>
      let '(pstore_addr, log_addr) :=
        match find_hex "pstore_addr" decoded with
        | Some v => (Some v, ["Found pstore_addr: " ++ v])
        | None => (pstore_addr, [])
        end in
      let '(pstore_size, log_size) :=
        match find_hex "pstore_size" decoded with
        | Some v => (Some v, ["Found pstore_size: " ++ v])
        | None => (pstore_size, [])
        end in
      if truthy pstore_addr && truthy pstore_size
      then ((pstore_addr, pstore_size), log_addr ++ log_size)%list
      else
        let '(found, logged) := find_loop rest pstore_addr pstore_size in
        (found, log_addr ++ log_size ++ logged)%list
    end
  end.

Definition find_pstore_config (data : bytes)
  : (option string * option string) * list string :=
  find_loop (ascii_strings 4 data) None None.

Fixpoint log_each (l : level) (msgs : list string) : io unit :=
  match msgs with
  | [] => Ret tt
  | m :: rest => log l m ;; log_each l rest
  end.

Definition _find_pstore_config_in_data (data : bytes)
  : io (option string * option string) :=
  let '(found, logged) := find_pstore_config data in
  log_each INFO logged ;; Ret found.

Definition defaults : option string * option string :=
  (Some PSTORE_ADDRESS, Some PSTORE_SIZE).

Definition detect_pstore_addr : io (option string * option string) :=
  with_tempdir (fun tmp =>
    let raw_expdb_filename := tmp ++ "/expdb.bin" in
    log INFO "Extracting expdb partition to detect pstore configuration..." ;;
    ok <- extract_with_mtkclient expdb raw_expdb_filename None None true ;;
    if negb ok then
      log ERROR "Failed to extract expdb for pstore detection" ;;
      Ret defaults
    else
      ReadFile raw_expdb_filename (fun r =>
        match r with
        | inr data =>
          '(pstore_addr, pstore_size) <- _find_pstore_config_in_data data ;;
          if truthy pstore_addr && truthy pstore_size then
            log INFO "Successfully detected pstore configuration from expdb" ;;
            Ret (pstore_addr, pstore_size)
          else if truthy pstore_addr then
            log INFO "Found address but missing size, using default size" ;;
            Ret (pstore_addr, Some PSTORE_SIZE)
          else if truthy pstore_size then
            log INFO "Found size but missing address, using default address" ;;
            Ret (Some PSTORE_ADDRESS, pstore_size)
          else
            log INFO "No pstore configuration found, using defaults" ;;
            Ret defaults
        | inl error =>
          log ERROR ("Error reading expdb file for pstore detection: " ++ error) ;;
          Ret defaults
        end)).

(** *** resolve_pstore_params *)

Definition resolve_pstore_params (pstore_address pstore_size : option string)
           (auto_detect : bool) : io (option string * option string) :=
  '(address, size) <-
    (if auto_detect then
       '(detected_addr, detected_size) <- detect_pstore_addr ;;
       Ret (py_or pstore_address detected_addr, py_or pstore_size detected_size)
     else
       Ret (py_or pstore_address (Some PSTORE_ADDRESS),
            py_or pstore_size (Some PSTORE_SIZE))) ;;
  log INFO ("Extracting pstore from memory (MemAddr: " ++ fmt address
            ++ ". Size: " ++ fmt size ++ ")") ;;
  Ret (address, size).

(** *** extract_expdb *)

Definition extract_expdb (output_file : path) : io bool :=
  done <- with_tempdir (fun tmp =>
    let raw_expdb_filename := tmp ++ "/expdb.bin" in
    log INFO "Extracting expdb partition..." ;;
    ok <- extract_with_mtkclient expdb raw_expdb_filename None None true ;;
    if ok then
      extract_ascii_strings output_file raw_expdb_filename 4 ;;
      Ret true
    else Ret false) ;;
  if done then Ret true
  else
    log ERROR "Failed to extract expdb partition" ;;
    Ret false.

(** *** extract_pstore *)

Definition extract_pstore (output_file : path)
           (pstore_address pstore_size : option string)
           (auto_detect da : bool) : io bool :=
  '(address, size) <- resolve_pstore_params pstore_address pstore_size auto_detect ;;
  done <- with_tempdir (fun tmp =>
    let raw_pstore_filename := tmp ++ "/pstore.bin" in
    ok <- extract_with_mtkclient pstore raw_pstore_filename address size da ;;
    if ok then
      extract_ascii_strings output_file raw_pstore_filename 4 ;;
      Ret true
    else Ret false) ;;
  if done then Ret true
  else
    log ERROR "Failed to extract pstore from memory" ;;
    Ret false.

(** *** main *)

(** What the user typed, as [argparse] sees it: the two positionals, the
    three options that take a value and the two flags (present or
    not). *)
Record cli : Type := Cli {
  cli_command            : string;
  cli_filename           : string;
  opt_mtkclient_args     : option string;
  opt_pstore_address     : option string;
  opt_pstore_size        : option string;
  flag_auto_detect_pstore : bool;
  flag_dont_peek_via_da   : bool
}.

(** The namespace [parser.parse_args()] returns. *)
Record namespace : Type := Namespace {
  command            : string;
  filename           : string;
  mtkclient_args     : option string;
  pstore_address     : option string;
  pstore_size        : option string;
  auto_detect_pstore : bool;
  dont_peek_via_da   : bool
}.

(** [choices=['expdb', 'pstore']] *)
Definition choices : list string := ["expdb"; "pstore"].

(** The [add_argument] declarations: a [type=str] option is [None] when
    not given; [store_true] gives [True] when the flag is given and
    [False] otherwise; [store_false] the opposite.  This is the namespace
    of a command line that [argparse] accepts; one it refuses (a command
    outside [choices], a missing positional, an unknown option) ends the
    process with status 2 before [main] goes on. *)
Definition parse_args (c : cli) : namespace :=
  {| command            := cli_command c;
     filename           := cli_filename c;
     mtkclient_args     := opt_mtkclient_args c;
     pstore_address     := opt_pstore_address c;
     pstore_size        := opt_pstore_size c;
     auto_detect_pstore := flag_auto_detect_pstore c;
     dont_peek_via_da   := negb (flag_dont_peek_via_da c) |}.

Definition wrong_command_warning : string :=
  "This argument is valid only with pstore command, ignoring".

Section Main.

(** [str(Path(s))]: [pathlib] is outside the repository. *)
Variable Path : string -> path.

Definition main (args : namespace) : io bool :=
(if auto_detect_pstore args
    || (dont_peek_via_da args && negb (command args =? "pstore"))
 then log WARNING wrong_command_warning
 else Ret tt) ;;
log INFO ("Output file: " ++ filename args) ;;
let output_file := Path (filename args) in
if command args =? "expdb" then
  extract_expdb output_file
else if command args =? "pstore" then
  extract_pstore output_file (pstore_address args) (pstore_size args)
                 (auto_detect_pstore args) (dont_peek_via_da args)
else Ret false.


End Main.

End LogUtil.

(** ** Vocabulary of the properties *)

Module Props.

Import Regex IO LogUtil.
Local Open Scope string_scope.

Section Runs.

Variable C : Type.
Variable f : C -> bool.

(** The character at index [j] exists and is in the class. *)
Definition inside (s : list C) (j : nat) : Prop :=
exists c, nth_error s j = Some c /\ f c = true.

(** The character at index [j] exists and is not in the class. *)
Definition outside (s : list C) (j : nat) : Prop :=
exists c, nth_error s j = Some c /\ f c = false.

(** [s[st .. st+n)] is a maximal contiguous run of characters of the
  class: all of them are in the class, and the run can be extended
  neither to the left nor to the right. *)
Definition maximal_run (s : list C) (st n : nat) : Prop :=
st + n <= List.length s /\
(forall j, st <= j < st + n -> inside s j) /\
(st = 0 \/ outside s (st - 1)) /\
(st + n = List.length s \/ outside s (st + n)).

(** The pattern [[class]{m,}]. *)
Definition class_run (m : nat) : pattern C := [Atom f m None false].

(** The text after a run: nothing, or a character outside the class. *)
Definition stops (rest : list C) : Prop :=
  match rest with
  | [] => True
  | c :: _ => f c = false
  end.

End Runs.

(** Spans in reading order that neither overlap nor touch. *)
Definition apart (a b : nat * nat) : Prop := fst a + snd a < fst b.

(** A span of the second half of a buffer, in the coordinates of the
    whole buffer. *)
Definition shift (k : nat) (span : nat * nat) : nat * nat :=
  (k + fst span, snd span).

(** Scanning the two halves of a buffer separately, results put
    together. *)
Definition scan_halves (m : nat) (B1 B2 : bytes) : list (nat * nat) :=
  spans (printable_run m) B1 ++
  map (shift (List.length B1)) (spans (printable_run m) B2).

(** The cut [B1 | B2] falls at a break: one side is empty, or the byte
    before the cut or the byte after it is not printable. *)
Definition cut_at_break (B1 B2 : bytes) : Prop :=
  B1 = [] \/ B2 = [] \/
  outside printable (B1 ++ B2) (List.length B1 - 1) \/
  outside printable (B1 ++ B2) (List.length B1).

(** The cut falls inside a run: the bytes on both sides of it are
    printable. *)
Definition cut_in_run (B1 B2 : bytes) : Prop :=
  B1 <> [] /\
  inside printable (B1 ++ B2) (List.length B1 - 1) /\
  inside printable (B1 ++ B2) (List.length B1).

(** An override that counts: given, and not the empty string. *)
Definition given (override : option string) : option string :=
  match override with
  | Some (String c s) => Some (String c s)
  | _ => None
  end.

(** Explicit override, else detected value, else default. *)
Definition precedence (override detected : option string) (default : string)
  : option string :=
  match override with
  | Some v => Some v
  | None =>
    match detected with
    | Some v => Some v
    | None => Some default
    end
  end.

(** Where a resolved value comes from. *)
Definition filled_from (v : string) (override detected : option string)
           (default : string) : Prop :=
  override = Some v \/ detected = Some v \/ v = default.

(** The first file content a run obtained. *)
Fixpoint dump_read (t : trace) : option bytes :=
  match t with
  | [] => None
  | EvRead _ (inr data) :: _ => Some data
  | _ :: t' => dump_read t'
  end.

(** What the detection scan of a run found: the two values of
    [_find_pstore_config_in_data] on the dump that was read, and nothing
    when no dump was read. *)
Definition detected (t : trace) : option string * option string :=
  match dump_read t with
  | Some data => fst (find_pstore_config data)
  | None => (None, None)
  end.

(** A command that failed: non-zero exit code, or it could not be
    launched. *)
Definition failed (r : proc_result) : bool :=
  match r with
  | Exited _ code => negb (code =? 0)%Z
  | LaunchError _ => true
  end.

(** Events that only put a line on the console, the warning apart. *)
Definition console (e : event) : bool :=
  match e with
  | EvLog INFO _ | EvLog ERROR _ | EvPrint _ => true
  | _ => false
  end.

Definition no_warning (e : event) : Prop := is_warning e = false.
Definition no_write (e : event) : Prop := is_write e = false.
Definition no_popen (e : event) : Prop := is_popen e = false.

(** A [str | None] that is not the empty string. *)
Definition sound (o : option string) : Prop := o <> Some EmptyString.

(** The condition of the wrong-command warning, on what the user
    typed. *)
Definition warns (c : cli) : bool :=
  flag_auto_detect_pstore c
  || (negb (flag_dont_peek_via_da c) && negb (cli_command c =? "pstore")).

Definition the_warning : event :=
  EvLog WARNING ("[mtklogs] " ++ wrong_command_warning).

(** The same command line with another value for [--mtkclient-args]. *)
Definition with_mtkclient_args (c : cli) (a : option string) : cli :=
  {| cli_command := cli_command c;
     cli_filename := cli_filename c;
     opt_mtkclient_args := a;
     opt_pstore_address := opt_pstore_address c;
     opt_pstore_size := opt_pstore_size c;
     flag_auto_detect_pstore := flag_auto_detect_pstore c;
     flag_dont_peek_via_da := flag_dont_peek_via_da c |}.

(** A small world for examples: every command ends as [r], the temporary
    directory is [/tmp/t], every file reads as [file], every write
    succeeds. *)
Definition fixed_world (r : proc_result) (file : string + bytes) : env unit :=
  {| popen := fun _ w => (r, w);
     mktemp := fun w => ("/tmp/t", w);
     rmtemp := fun _ w => w;
     read_file := fun _ _ => file;
     write_file := fun _ _ w => (None, w) |}.

Definition text (s : string) : bytes := list_byte_of_string s.

(** *** Vocabulary for the rest of the code *)


Definition is_read (e : event) : bool :=
  match e with EvRead _ _ => true | _ => false end.
Definition is_temp (e : event) : bool :=
  match e with EvMkTemp _ | EvRmTemp _ => true | _ => false end.

(** Temporary directories that are created and removed one after the
    other: the next is created only after the previous one is gone. *)
Definition lifetimes (dirs : list string) : trace :=
  flat_map (fun d => [EvMkTemp d; EvRmTemp d]) dirs.

(** [s.startswith(p)] *)
Fixpoint starts_with (p s : string) : bool :=
  match p with
  | EmptyString => true
  | String a p' =>
    match s with
    | String b s' => Ascii.eqb a b && starts_with p' s'
    | EmptyString => false
    end
  end.

(** Every line the script logs carries the logger's prefix, every line it
    prints the prefix of the child's output, and every command it runs is
    an mtkclient command. *)
Definition tagged (e : event) : Prop :=
  match e with
  | EvLog _ line => starts_with "[mtklogs] " line = true
  | EvPrint line => starts_with "[mtkclient] " line = true
  | EvPopen cmd _ => starts_with "python mtkclient/mtk.py " cmd = true
  | _ => True
  end.

(** A write goes to the file [out]. *)
Definition writes_to (out : string) (e : event) : Prop :=
  match e with
  | EvWrite p _ _ => p = out
  | _ => True
  end.

(** [0x] followed by at least one hexadecimal digit. *)
Definition hex_literal (v : string) : Prop :=
  exists h, v = "0x" ++ string_of_list_ascii h /\ h <> [] /\
            Forall (fun c => is_hex c = true) h.

Definition absent_or (P : string -> Prop) (o : option string) : Prop :=
  match o with
  | None => True
  | Some v => P v
  end.

(** Both values of the detection loop are known. *)
Definition both (found : option string * option string) : bool :=
  truthy (fst found) && truthy (snd found).

Definition no_temp (e : event) : Prop := is_temp e = false.

(** [main] after its own log lines. *)
Definition dispatch (Path : string -> path) (ns : namespace) : io bool :=
  if command ns =? "expdb" then extract_expdb (Path (filename ns))
  else if command ns =? "pstore"
       then extract_pstore (Path (filename ns))
                           (pstore_address ns) (pstore_size ns)
                           (auto_detect_pstore ns) (dont_peek_via_da ns)
       else Ret false.

End Props.

(** ** Facts about runs and traces *)

Module IOFacts.

Import IO.

Section Run.

Variable W : Type.
Variable E : env W.

Lemma run_bind (A B : Type) (p : io A) (f : A -> io B) (w : W) :
  run E (bind p f) w =
  let '(a, w1, t1) := run E p w in
  let '(b, w2, t2) := run E (f a) w1 in
  (b, w2, t1 ++ t2).
Proof.
  revert w; induction p as [a|l m k IH|m k IH|cmd k IH|k IH|d k IH|path k IH|path c k IH];
    intro w; simpl.
  - destruct (run E (f a) w) as [[b w2] t2]; reflexivity.
  - rewrite IH. destruct (run E k w) as [[a w1] t1].
    destruct (run E (f a) w1) as [[b w2] t2]; reflexivity.
  - rewrite IH. destruct (run E k w) as [[a w1] t1].
    destruct (run E (f a) w1) as [[b w2] t2]; reflexivity.
  - destruct (popen E cmd w) as [r w0]. rewrite IH.
    destruct (run E (k r) w0) as [[a w1] t1].
    destruct (run E (f a) w1) as [[b w2] t2]; reflexivity.
  - destruct (mktemp E w) as [d w0]. rewrite IH.
    destruct (run E (k d) w0) as [[a w1] t1].
    destruct (run E (f a) w1) as [[b w2] t2]; reflexivity.
  - rewrite IH. destruct (run E k (rmtemp E d w)) as [[a w1] t1].
    destruct (run E (f a) w1) as [[b w2] t2]; reflexivity.
  - rewrite IH. destruct (run E (k (read_file E path w)) w) as [[a w1] t1].
    destruct (run E (f a) w1) as [[b w2] t2]; reflexivity.
  - destruct (write_file E path c w) as [r w0]. rewrite IH.
    destruct (run E (k r) w0) as [[a w1] t1].
    destruct (run E (f a) w1) as [[b w2] t2]; reflexivity.
Qed.

Lemma result_bind (A B : Type) (p : io A) (f : A -> io B) (w : W) :
  result E (bind p f) w = result E (f (result E p w)) (world_after E p w).
Proof.
  unfold result, world_after. rewrite run_bind.
  destruct (run E p w) as [[a w1] t1]; simpl.
  destruct (run E (f a) w1) as [[b w2] t2]; reflexivity.
Qed.

Lemma events_bind (A B : Type) (p : io A) (f : A -> io B) (w : W) :
  events E (bind p f) w =
  events E p w ++ events E (f (result E p w)) (world_after E p w).
Proof.
  unfold events, result, world_after. rewrite run_bind.
  destruct (run E p w) as [[a w1] t1]; simpl.
  destruct (run E (f a) w1) as [[b w2] t2]; reflexivity.
Qed.

Lemma world_after_bind (A B : Type) (p : io A) (f : A -> io B) (w : W) :
  world_after E (bind p f) w =
  world_after E (f (result E p w)) (world_after E p w).
Proof.
  unfold result, world_after. rewrite run_bind.
  destruct (run E p w) as [[a w1] t1]; simpl.
  destruct (run E (f a) w1) as [[b w2] t2]; reflexivity.
Qed.

(** A property of every event a program can emit holds of the events
    of each of its runs. *)
Lemma emits_events (P : event -> Prop) (A : Type) (p : io A) :
  emits P p -> forall w, Forall P (events E p w).
Proof.
  unfold events.
  induction 1 as [a|l m k HP _ IH|m k HP _ IH|cmd k HP _ IH|k HP _ IH
                  |d k HP _ IH|path k HP _ IH|path c k HP _ IH];
    intro w; simpl.
  - constructor.
  - specialize (IH w). destruct (run E k w) as [[a w1] t1]; simpl in *.
    constructor; assumption.
  - specialize (IH w). destruct (run E k w) as [[a w1] t1]; simpl in *.
    constructor; assumption.
  - destruct (popen E cmd w) as [r w0]. specialize (IH r w0).
    destruct (run E (k r) w0) as [[a w1] t1]; simpl in *.
    constructor; [apply HP | assumption].
  - destruct (mktemp E w) as [d w0]. specialize (IH d w0).
    destruct (run E (k d) w0) as [[a w1] t1]; simpl in *.
    constructor; [apply HP | assumption].
  - specialize (IH (rmtemp E d w)).
    destruct (run E k (rmtemp E d w)) as [[a w1] t1]; simpl in *.
    constructor; assumption.
  - specialize (IH (read_file E path w) w).
    destruct (run E (k (read_file E path w)) w) as [[a w1] t1]; simpl in *.
    constructor; [apply HP | assumption].
  - destruct (write_file E path c w) as [r w0]. specialize (IH r w0).
    destruct (run E (k r) w0) as [[a w1] t1]; simpl in *.
    constructor; [apply HP | assumption].
Qed.

End Run.

Lemma emits_bind (P : event -> Prop) (A B : Type) (p : io A) (f : A -> io B) :
  emits P p -> (forall a, emits P (f a)) -> emits P (bind p f).
Proof.
  intros Hp Hf. induction Hp; simpl; try (constructor; auto; fail).
  apply Hf.
Qed.

Lemma commands_app (t1 t2 : trace) :
  commands (t1 ++ t2) = commands t1 ++ commands t2.
Proof.
  induction t1 as [|e t1 IH]; simpl; [reflexivity|].
  destruct e; simpl; rewrite ?IH; reflexivity.
Qed.

Lemma commands_nil (t : trace) :
  Forall (fun e => is_popen e = false) t -> commands t = [].
Proof.
  induction 1 as [|e t He _ IH]; simpl; [reflexivity|].
  destruct e; simpl in *; try assumption; discriminate.
Qed.

End IOFacts.

(** ** Facts about scanning for runs of one character class *)

Module RegexFacts.

Import Regex Props.

Section OneClass.

Variable C : Type.
Variable f : C -> bool.
Variable m : nat.

Lemma split_run (s : list C) :
  exists r rest, s = r ++ rest /\ Forall (fun c => f c = true) r /\ stops f rest.
Proof.
  induction s as [|c s (r & rest & Hs & Hr & Hrest)].
  - exists [], []. repeat split; constructor.
  - destruct (f c) eqn:Hc.
    + exists (c :: r), rest. subst s. repeat split; auto.
    + exists [], (c :: s). repeat split; auto.
Qed.

Lemma count_prefix_run (r rest : list C) :
  Forall (fun c => f c = true) r -> stops f rest ->
  count_prefix f None (r ++ rest) = List.length r.
Proof.
  intros Hr Hrest. induction Hr as [|c r Hc _ IH]; simpl.
  - destruct rest as [|c rest]; simpl in *; [reflexivity|].
    rewrite Hrest; reflexivity.
  - rewrite Hc, IH; reflexivity.
Qed.

(** One attempt of [[class]{m,}]: the whole run, when it is long
    enough. *)
Lemma match_here_one_class (ma : bool) (s : list C) :
  match_here (class_run f m) ma 0 s =
  let k := count_prefix f None s in
  if (k <? m) || (ma && (k =? 0)) then None else Some (k, None).
Proof.
  cbv zeta. unfold class_run. cbn [match_here rmin rmax cls grp].
  destruct (count_prefix f None s) as [|k]; cbn [backtrack].
  - destruct (0 <? m); [reflexivity|].
    cbn. destruct ma; reflexivity.
  - destruct (S k <? m); [reflexivity|].
    cbn. rewrite andb_false_r. reflexivity.
Qed.

(** Positions covered by the last match are passed over. *)
Lemma scan_skip (p : pattern C) (r rest : list C) (pos : nat) :
  scan p (List.length r) pos (r ++ rest) = scan p 0 (pos + List.length r) rest.
Proof.
  revert pos; induction r as [|c r IH]; intro pos; simpl List.length.
  - rewrite Nat.add_0_r; reflexivity.
  - cbn [app scan at_position map]. rewrite IH.
    f_equal. lia.
Qed.

(** *** Runs of the text, by position *)

Lemma inside_outside (s : list C) (j : nat) :
inside f s j -> outside f s j -> False.
Proof.
intros (c & Hc & Hin) (c' & Hc' & Hout). congruence.
Qed.

Lemma inside_run (r rest : list C) (j : nat) :
Forall (fun c => f c = true) r -> j < List.length r -> inside f (r ++ rest) j.
Proof.
intros Hr Hj. destruct (nth_error r j) as [c|] eqn:Hc.
- exists c. split.
  + rewrite nth_error_app1 by assumption. exact Hc.
  + rewrite Forall_forall in Hr. apply Hr. eapply nth_error_In; eauto.
- apply nth_error_None in Hc. lia.
Qed.

Lemma outside_gap (r : list C) (c : C) (s : list C) :
f c = false -> outside f (r ++ c :: s) (List.length r).
Proof.
intro Hc. exists c. split; [|assumption].
rewrite nth_error_app2, Nat.sub_diag by lia. reflexivity.
Qed.

Lemma nth_error_after (r : list C) (c : C) (s : list C) (j : nat) :
nth_error (r ++ c :: s) (List.length r + 1 + j) = nth_error s j.
Proof.
rewrite nth_error_app2 by lia.
replace (List.length r + 1 + j - List.length r) with (S j) by lia.
reflexivity.
Qed.

Lemma inside_after (r : list C) (c : C) (s : list C) (j : nat) :
inside f (r ++ c :: s) (List.length r + 1 + j) <-> inside f s j.
Proof. unfold inside. rewrite nth_error_after. tauto. Qed.

Lemma outside_after (r : list C) (c : C) (s : list C) (j : nat) :
outside f (r ++ c :: s) (List.length r + 1 + j) <-> outside f s j.
Proof. unfold outside. rewrite nth_error_after. tauto. Qed.

Lemma outside_bound (s : list C) (j : nat) : outside f s j -> j < List.length s.
Proof.
intros (c & Hc & _). apply nth_error_Some. congruence.
Qed.

(** A text of class characters only is one run. *)
Lemma runs_of_run (r : list C) (i n : nat) :
Forall (fun c => f c = true) r -> 1 <= n ->
(maximal_run f r i n <-> i = 0 /\ n = List.length r).
Proof.
intros Hr Hn.
assert (Hin : forall j, j < List.length r -> inside f r j).
{ intros j Hj. rewrite <- (app_nil_r r). apply inside_run; assumption. }
assert (Hout : forall j, outside f r j -> False).
{ intros j Hj. apply (inside_outside (s := r) (j := j)); [|assumption].
  apply Hin. eapply outside_bound; eauto. }
split.
- intros (Hb & _ & [Hl|Hl] & [Hr'|Hr']);
    try (exfalso; eapply Hout; eassumption). lia.
- intros [-> ->]. repeat split; auto; try lia.
  intros j Hj. apply Hin. lia.
Qed.

(** The runs of a text that starts with a run [r] closed by [c]: [r]
  itself, and the runs of what follows [c]. *)
Lemma runs_after_run (r : list C) (c : C) (s : list C) (i n : nat) :
Forall (fun c => f c = true) r -> f c = false -> 1 <= n ->
(maximal_run f (r ++ c :: s) i n <->
 (i = 0 /\ n = List.length r) \/
 (exists i', i = List.length r + 1 + i' /\ maximal_run f s i' n)).
Proof.
intros Hr Hc Hn.
pose proof (outside_gap r s Hc) as Hgap.
assert (Hlen : List.length (r ++ c :: s) = List.length r + 1 + List.length s).
{ rewrite length_app. simpl. lia. }
split.
- intros (Hb & Hin & Hl & Hr').
  destruct (Nat.le_gt_cases i (List.length r)) as [Hi|Hi].
  + left.
    assert (Hend : i + n <= List.length r).
    { destruct (Nat.le_gt_cases (i + n) (List.length r)); [assumption|].
      exfalso. eapply inside_outside; [apply (Hin (List.length r)); lia|].
      exact Hgap. }
    assert (i = 0) as ->.
    { destruct Hl as [Hl|Hl]; [assumption|].
      destruct i as [|i]; [reflexivity|].
      exfalso. eapply inside_outside; [|exact Hl].
      apply inside_run; [assumption|lia]. }
    split; [reflexivity|].
    destruct Hr' as [Hr'|Hr']; [lia|].
    destruct (Nat.eq_dec n (List.length r)) as [He|He]; [assumption|].
    exfalso. eapply inside_outside; [|exact Hr'].
    apply inside_run; [assumption|lia].
  + right.
    assert (exists i', i = List.length r + 1 + i') as (i' & ->)
      by (exists (i - List.length r - 1); lia).
    exists i'. split; [reflexivity|].
    repeat split.
    * lia.
    * intros j Hj. apply (inside_after r c s j).
      apply Hin. lia.
    * destruct Hl as [Hl|Hl]; [lia|].
      destruct i' as [|i']; [left; reflexivity|right].
      apply (outside_after r c s). 
      replace (List.length r + 1 + (S i' - 1))
        with (List.length r + 1 + S i' - 1) by lia.
      exact Hl.
    * destruct Hr' as [Hr'|Hr']; [left; lia|right].
      apply (outside_after r c s).
      replace (List.length r + 1 + (i' + n))
        with (List.length r + 1 + i' + n) by lia.
      exact Hr'.
- intros [[-> ->]|(i' & -> & Hb & Hin & Hl & Hr')].
  + repeat split.
    * lia.
    * intros j Hj. apply inside_run; [assumption|lia].
    * left; reflexivity.
    * right. exact Hgap.
  + repeat split.
    * lia.
    * intros j Hj.
      replace j with (List.length r + 1 + (j - List.length r - 1)) by lia.
      apply inside_after. apply Hin. lia.
    * right. destruct i' as [|i'].
      -- replace (List.length r + 1 + 0 - 1) with (List.length r) by lia.
         exact Hgap.
      -- destruct Hl as [Hl|Hl]; [discriminate|].
         replace (List.length r + 1 + S i' - 1)
           with (List.length r + 1 + (S i' - 1)) by lia.
         apply outside_after. exact Hl.
    * destruct Hr' as [Hr'|Hr']; [left; lia|right].
      replace (List.length r + 1 + i' + n)
        with (List.length r + 1 + (i' + n)) by lia.
      apply outside_after. exact Hr'.
Qed.

(** The text of a run consists of class characters. *)
Lemma run_slice (s : list C) (st n : nat) :
maximal_run f s st n -> Forall (fun c => f c = true) (slice s (st, n)).
Proof.
intros (Hb & Hin & _). apply Forall_forall. intros x Hx.
apply In_nth_error in Hx. destruct Hx as (j & Hj).
unfold slice in Hj. cbn [fst snd] in Hj.
rewrite nth_error_firstn in Hj.
destruct (Nat.ltb_spec j n) as [Hlt|]; [|discriminate].
rewrite nth_error_skipn in Hj.
destruct (Hin (st + j)) as (c & Hc & Hfc); [lia|].
congruence.
Qed.

Lemma scan_from_pos (p : pattern C) (s : list C) (skip pos : nat) (sp : nat * nat) :
In sp (scan p skip pos s) -> pos <= fst sp.
Proof.
revert skip pos. induction s as [|c s IH]; intros skip pos; cbn [scan];
  destruct (at_position p skip _) as [here skip'];
  rewrite in_app_iff, in_map_iff.
- intros [(n & <- & _)|[]]. simpl; lia.
- intros [(n & <- & _)|Hin]; [simpl; lia|].
  apply IH in Hin. lia.
Qed.

(** *** The scan, run by run *)

Hypothesis m_pos : 1 <= m.

Lemma scan_end (pos : nat) : scan (class_run f m) 0 pos [] = [].
Proof.
  cbn [scan at_position]. rewrite match_here_one_class. cbn.
  destruct m; [lia|]. reflexivity.
Qed.

Lemma scan_gap (c : C) (s : list C) (pos : nat) :
  f c = false ->
  scan (class_run f m) 0 pos (c :: s) = scan (class_run f m) 0 (S pos) s.
Proof.
  intro Hc. cbn [scan at_position]. rewrite match_here_one_class.
  cbn [count_prefix]. rewrite Hc. cbv zeta.
  destruct m; [lia|]. reflexivity.
Qed.

(** A run shorter than [m] yields nothing: every attempt inside it
    sees an even shorter run. *)
Lemma scan_short (r rest : list C) (pos : nat) :
  Forall (fun c => f c = true) r -> stops f rest -> List.length r < m ->
  scan (class_run f m) 0 pos (r ++ rest) =
  scan (class_run f m) 0 (pos + List.length r) rest.
Proof.
  intros Hr Hrest. revert pos.
  induction Hr as [|c r Hc Hr IH]; intros pos Hlen; simpl List.length in *.
  - rewrite Nat.add_0_r; reflexivity.
  - change ((c :: r) ++ rest) with (c :: (r ++ rest)).
    cbn [scan at_position]. rewrite match_here_one_class.
    change (c :: (r ++ rest)) with ((c :: r) ++ rest).
    rewrite count_prefix_run by (auto; constructor; auto).
    cbv zeta. simpl List.length.
    destruct (Nat.ltb_spec (S (List.length r)) m) as [_|H]; [|lia].
    cbn [orb map app]. rewrite IH by lia. f_equal; lia.
Qed.

(** A run of at least [m] characters is reported whole, once. *)
Lemma scan_long (r rest : list C) (pos : nat) :
  Forall (fun c => f c = true) r -> stops f rest -> m <= List.length r ->
  scan (class_run f m) 0 pos (r ++ rest) =
  (pos, List.length r) :: scan (class_run f m) 0 (pos + List.length r) rest.
Proof.
  intros Hr Hrest Hlen.
  destruct r as [|c r]; [simpl in Hlen; lia|].
  change ((c :: r) ++ rest) with (c :: (r ++ rest)).
  cbn [scan at_position]. rewrite match_here_one_class.
  change (c :: (r ++ rest)) with ((c :: r) ++ rest).
  rewrite count_prefix_run by auto.
  cbv zeta. simpl List.length in *.
  destruct (Nat.ltb_spec (S (List.length r)) m) as [H|_]; [lia|].
  rewrite andb_false_r. cbn [orb map app].
  rewrite scan_skip. do 2 f_equal. lia.
Qed.

(** The scan of a text, one run at a time. *)
Lemma scan_run (r rest : list C) (pos : nat) :
  Forall (fun c => f c = true) r -> stops f rest ->
  scan (class_run f m) 0 pos (r ++ rest) =
  (if m <=? List.length r then [(pos, List.length r)] else []) ++
  match rest with
  | [] => []
  | _ :: s' => scan (class_run f m) 0 (pos + List.length r + 1) s'
  end.
Proof.
  intros Hr Hrest.
  assert (Hrest' : scan (class_run f m) 0 (pos + List.length r) rest =
                   match rest with
                   | [] => []
                   | _ :: s' => scan (class_run f m) 0 (pos + List.length r + 1) s'
                   end).
  { destruct rest as [|c s']; [apply scan_end|].
    rewrite scan_gap by exact Hrest. f_equal; lia. }
  destruct (Nat.leb_spec m (List.length r)).
  - rewrite scan_long, Hrest' by assumption. reflexivity.
  - rewrite scan_short, Hrest' by assumption. reflexivity.
Qed.

(** The scan reports exactly the maximal runs of at least [m]
  characters. *)
Lemma scan_maximal (s : list C) (pos st n : nat) :
In (st, n) (scan (class_run f m) 0 pos s) <->
exists i, st = pos + i /\ maximal_run f s i n /\ m <= n.
Proof.
remember (List.length s) as k eqn:Hk.
revert s Hk pos st n.
induction k as [k IH] using lt_wf_ind. intros s Hk pos st n.
destruct (split_run s) as (r & rest & -> & Hr & Hrest).
rewrite scan_run by assumption.
destruct rest as [|c s'].
- rewrite !app_nil_r. split.
  + destruct (Nat.leb_spec m (List.length r)) as [Hm|Hm]; [|intros []].
    intros [[= <- <-]|[]]. exists 0. split; [lia|]. split; [|assumption].
    apply runs_of_run; [assumption|lia|auto].
  + intros (i & -> & Hrun & Hm).
    apply runs_of_run in Hrun; [|assumption|lia].
    destruct Hrun as [-> ->].
    destruct (Nat.leb_spec m (List.length r)); [|lia].
    left. f_equal. lia.
- simpl in Hrest. rewrite in_app_iff.
  rewrite (IH (List.length s')); [|subst k; rewrite length_app; simpl; lia|reflexivity].
  split.
  + intros [Hhere|(i' & -> & Hrun & Hm)].
    * destruct (Nat.leb_spec m (List.length r)) as [Hm|Hm]; [|destruct Hhere].
      destruct Hhere as [[= <- <-]|[]]. exists 0. split; [lia|].
      split; [|assumption].
      apply runs_after_run; [assumption|assumption|lia|left; auto].
    * exists (List.length r + 1 + i'). split; [lia|]. split; [|assumption].
      apply runs_after_run; [assumption|assumption|lia|right; eauto].
  + intros (i & -> & Hrun & Hm).
    apply runs_after_run in Hrun; [|assumption|assumption|lia].
    destruct Hrun as [[-> ->]|(i' & -> & Hrun)].
    * left. destruct (Nat.leb_spec m (List.length r)); [|lia].
      left. f_equal. lia.
    * right. exists i'. split; [lia|]. split; assumption.
Qed.

(** The reported runs come in reading order and do not touch. *)
Lemma scan_apart (s : list C) (pos : nat) :
StronglySorted apart (scan (class_run f m) 0 pos s).
Proof.
remember (List.length s) as k eqn:Hk.
revert s Hk pos.
induction k as [k IH] using lt_wf_ind. intros s Hk pos.
destruct (split_run s) as (r & rest & -> & Hr & Hrest).
rewrite scan_run by assumption.
assert (Htail : StronglySorted apart
                  match rest with
                  | [] => []
                  | _ :: s' => scan (class_run f m) 0 (pos + List.length r + 1) s'
                  end).
{ destruct rest as [|c s']; [constructor|].
  apply (IH (List.length s')); [|reflexivity].
  subst k. rewrite length_app. simpl. lia. }
destruct (m <=? List.length r); [|exact Htail].
constructor; [exact Htail|].
destruct rest as [|c s']; [constructor|].
apply Forall_forall. intros sp Hsp. apply scan_from_pos in Hsp.
unfold apart. simpl. lia.
Qed.

End OneClass.

(** Slices of the halves of a buffer are slices of the buffer. *)

Lemma slice_left (C : Type) (s1 s2 : list C) (st n : nat) :
  st + n <= List.length s1 -> slice (s1 ++ s2) (st, n) = slice s1 (st, n).
Proof.
  intro H. unfold slice. cbn [fst snd].
  rewrite skipn_app, firstn_app, length_skipn.
  replace (n - (List.length s1 - st)) with 0 by lia.
  rewrite firstn_O, app_nil_r. reflexivity.
Qed.

Lemma slice_right (C : Type) (s1 s2 : list C) (st n : nat) :
  slice (s1 ++ s2) (List.length s1 + st, n) = slice s2 (st, n).
Proof.
  unfold slice. cbn [fst snd].
  rewrite skipn_app, skipn_all2 by lia.
  replace (List.length s1 + st - List.length s1) with st by lia.
  reflexivity.
Qed.

(** *** Cutting a text in two *)

Section Positions.

Variable C : Type.
Variable f : C -> bool.

(** Positions are relative to where the scan starts. *)
Lemma scan_shift (p : pattern C) (s : list C) (skip pos : nat) :
  scan p skip pos s = map (shift pos) (scan p skip 0 s).
Proof.
  revert skip pos. induction s as [|c s IH]; intros skip pos; cbn [scan];
    destruct (at_position p skip _) as [here skip'].
  - rewrite !app_nil_r, map_map. apply map_ext. intro n.
    unfold shift. cbn. f_equal. lia.
  - rewrite (IH skip' (S pos)), (IH skip' 1), map_app, !map_map. f_equal.
    + apply map_ext. intro n. unfold shift. cbn. f_equal. lia.
    + apply map_ext. intros [a b]. unfold shift. cbn. f_equal. lia.
Qed.

(** Every character of the class lies in a maximal run. *)
Lemma run_containing (s : list C) (j : nat) :
  inside f s j ->
  exists st n, maximal_run f s st n /\ st <= j < st + n.
Proof.
  remember (List.length s) as k eqn:Hk.
  revert s Hk j. induction k as [k IH] using lt_wf_ind. intros s Hk j Hj.
  destruct (split_run f s) as (r & rest & -> & Hr & Hrest).
  assert (Hlt : j < List.length (r ++ rest)).
  { destruct Hj as (c & Hc & _). apply nth_error_Some. congruence. }
  rewrite length_app in Hlt.
  destruct (Nat.lt_ge_cases j (List.length r)) as [Hin|Hout].
  - exists 0, (List.length r). split; [|lia].
    destruct rest as [|c s'].
    + rewrite app_nil_r. apply runs_of_run; [assumption|lia|auto].
    + apply runs_after_run; [assumption|exact Hrest|lia|left; auto].
  - destruct rest as [|c s']; [simpl in Hlt; lia|]. simpl in Hrest.
    destruct (Nat.eq_dec j (List.length r)) as [->|Hne].
    + exfalso. eapply inside_outside; [exact Hj|].
      apply outside_gap. exact Hrest.
    + assert (exists j', j = List.length r + 1 + j') as (j' & ->)
        by (exists (j - List.length r - 1); lia).
      apply inside_after in Hj.
      destruct (IH (List.length s')) with (s := s') (j := j')
        as (st & n & Hrun & Hb); [|reflexivity|assumption|].
      { subst k. rewrite length_app. simpl. lia. }
      exists (List.length r + 1 + st), n. split; [|lia].
      apply runs_after_run; [assumption|exact Hrest|lia|right; eauto].
Qed.

End Positions.

Section Cuts.

Variable C : Type.
Variable f : C -> bool.
Variable m : nat.
Hypothesis m_pos : 1 <= m.

(** When the second part does not start inside a run, the scan of the
    whole is the scan of the first part followed by that of the
    second. *)
Lemma scan_app_stops (B1 B2 : list C) (pos : nat) :
  stops f B2 ->
  scan (class_run f m) 0 pos (B1 ++ B2) =
  scan (class_run f m) 0 pos B1 ++
  scan (class_run f m) 0 (pos + List.length B1) B2.
Proof.
  intro H2. remember (List.length B1) as k eqn:Hk.
  revert B1 Hk pos. induction k as [k IH] using lt_wf_ind. intros B1 Hk pos.
  destruct (split_run f B1) as (r & rest & -> & Hr & Hrest).
  destruct rest as [|c s'].
  - rewrite app_nil_r in *.
    rewrite (@scan_run C f m m_pos r B2 pos Hr H2).
    pose proof (@scan_run C f m m_pos r [] pos Hr I) as H0.
    rewrite !app_nil_r in H0. rewrite H0. f_equal. subst k.
    destruct B2 as [|c s']; [symmetry; apply (@scan_end C f m m_pos)|].
    simpl in H2. rewrite (@scan_gap C f m m_pos c s' _ H2). f_equal. lia.
  - simpl in Hrest. rewrite <- app_assoc. cbn [app].
    rewrite (@scan_run C f m m_pos r (c :: s' ++ B2) pos Hr Hrest).
    rewrite (@scan_run C f m m_pos r (c :: s') pos Hr Hrest).
    rewrite <- app_assoc. f_equal.
    rewrite (IH (List.length s')); [|subst k; rewrite length_app; simpl; lia
                                    |reflexivity].
    f_equal. f_equal. subst k. rewrite length_app. simpl. lia.
Qed.

Lemma scan_app_break (B1 B2 : list C) (pos : nat) :
  B1 = [] \/ (exists B1' c, B1 = B1' ++ [c] /\ f c = false) \/ stops f B2 ->
  scan (class_run f m) 0 pos (B1 ++ B2) =
  scan (class_run f m) 0 pos B1 ++
  scan (class_run f m) 0 (pos + List.length B1) B2.
Proof.
  intros [->|[(B1' & c & -> & Hc)|H2]].
  - cbn [app List.length]. rewrite (@scan_end C f m m_pos).
    rewrite Nat.add_0_r. reflexivity.
  - rewrite <- app_assoc. cbn [app].
    rewrite (scan_app_stops B1' (c :: B2) pos Hc).
    rewrite (scan_app_stops B1' [c] pos Hc).
    rewrite !(@scan_gap C f m m_pos c _ _ Hc), (@scan_end C f m m_pos).
    rewrite app_nil_r, length_app. cbn [List.length]. f_equal. f_equal. lia.
  - apply scan_app_stops. exact H2.
Qed.

End Cuts.

End RegexFacts.

(** ** Facts about the functions of logutil.py *)

Module LogUtilFacts.

Import Regex IO LogUtil Props IOFacts RegexFacts.
Local Open Scope string_scope.
Local Open Scope list_scope.

Ltac emits_step :=
  cbv beta;
  match goal with
  | |- emits _ (bind _ _) => apply emits_bind; [|intro]
  | |- emits _ (if ?b then _ else _) => destruct b
  | |- emits _ (match ?x with _ => _ end) => destruct x
  | |- emits _ _ => constructor; intros
  | |- _ /\ _ => split
  | |- _ => reflexivity
  end.

Lemma emits_stream_output (P : event -> Prop) (lines : list string) :
  (forall m, P (EvPrint m)) -> emits P (stream_output lines).
Proof.
  intro HP. induction lines as [|l lines IH]; simpl; constructor; auto.
Qed.

Lemma emits_log_each (P : event -> Prop) (l : level) (msgs : list string) :
  (forall m, P (EvLog l m)) -> emits P (log_each l msgs).
Proof.
  intro HP. induction msgs as [|m msgs IH]; simpl; constructor; auto.
Qed.

Ltac emits_auto :=
  repeat first
    [ apply emits_stream_output; intros
    | apply emits_log_each; intros
    | emits_step ].

Lemma quiet_run_command (cmd : string) :
  emits (fun e => is_warning e = false /\ is_write e = false) (run_command cmd).
Proof. unfold run_command. cbn [bind log]. emits_auto. Qed.

Lemma quiet_detect_pstore_addr :
  emits (fun e => is_warning e = false /\ is_write e = false) detect_pstore_addr.
Proof.
  unfold detect_pstore_addr, with_tempdir, extract_with_mtkclient,
    _find_pstore_config_in_data.
  cbn [bind log].
  repeat first
    [ apply quiet_run_command | apply emits_log_each; intros | emits_step ].
Qed.

Lemma quiet_resolve_pstore_params (pa ps : option string) (auto : bool) :
  emits (fun e => is_warning e = false /\ is_write e = false)
        (resolve_pstore_params pa ps auto).
Proof.
  unfold resolve_pstore_params, log.
  destruct auto.
  - repeat first [ apply quiet_detect_pstore_addr | emits_step ].
  - emits_auto.
Qed.

Lemma calm_extract_ascii_strings (output_file filename : string) (m : nat) :
  emits (fun e => is_warning e = false /\ is_popen e = false)
        (extract_ascii_strings output_file filename m).
Proof. unfold extract_ascii_strings, log. emits_auto. Qed.

Lemma emits_weaken (P Q : event -> Prop) (A : Type) (p : io A) :
  (forall e, P e -> Q e) -> emits P p -> emits Q p.
Proof. intro H. induction 1; constructor; auto. Qed.

Lemma emits_left (P Q : event -> Prop) (A : Type) (p : io A) :
  emits (fun e => P e /\ Q e) p -> emits P p.
Proof. apply emits_weaken. intros e [H _]; exact H. Qed.

Lemma emits_right (P Q : event -> Prop) (A : Type) (p : io A) :
  emits (fun e => P e /\ Q e) p -> emits Q p.
Proof. apply emits_weaken. intros e [_ H]; exact H. Qed.

Lemma no_warning_run_command (cmd : string) : emits no_warning (run_command cmd).
Proof. exact (emits_left no_warning no_write (quiet_run_command cmd)). Qed.

Lemma no_warning_resolve_pstore_params (pa ps : option string) (auto : bool) :
  emits no_warning (resolve_pstore_params pa ps auto).
Proof.
  exact (emits_left no_warning no_write (quiet_resolve_pstore_params pa ps auto)).
Qed.

Lemma no_write_resolve_pstore_params (pa ps : option string) (auto : bool) :
  emits no_write (resolve_pstore_params pa ps auto).
Proof.
  exact (emits_right no_warning no_write (quiet_resolve_pstore_params pa ps auto)).
Qed.

Lemma no_warning_extract_ascii_strings (output_file filename : string) (m : nat) :
  emits no_warning (extract_ascii_strings output_file filename m).
Proof.
  exact (emits_left no_warning no_popen
           (calm_extract_ascii_strings output_file filename m)).
Qed.

Lemma no_popen_extract_ascii_strings (output_file filename : string) (m : nat) :
  emits no_popen (extract_ascii_strings output_file filename m).
Proof.
  exact (emits_right no_warning no_popen
           (calm_extract_ascii_strings output_file filename m)).
Qed.

Lemma no_warning_extract_expdb (out : path) :
  emits no_warning (extract_expdb out).
Proof.
  unfold extract_expdb, with_tempdir, extract_with_mtkclient, log.
  repeat first
    [ apply no_warning_run_command
    | apply no_warning_extract_ascii_strings
    | emits_step ].
Qed.

Lemma no_warning_extract_pstore (out : path) (pa ps : option string)
      (auto da : bool) :
  emits no_warning (extract_pstore out pa ps auto da).
Proof.
  unfold extract_pstore, with_tempdir, extract_with_mtkclient, log.
  repeat first
    [ apply no_warning_resolve_pstore_params
    | apply no_warning_run_command
    | apply no_warning_extract_ascii_strings
    | emits_step ].
Qed.

(** *** Values of [str | None] *)

Lemma truthy_true (o : option string) :
  truthy o = true -> exists v, o = Some v /\ v <> EmptyString.
Proof.
  destruct o as [[|c v]|]; try discriminate. intros _.
  eexists; split; [reflexivity|discriminate].
Qed.

Lemma truthy_false (o : option string) :
  sound o -> truthy o = false -> o = None.
Proof.
  destruct o as [[|c v]|]; try discriminate; [|reflexivity].
  intros H; contradiction H; reflexivity.
Qed.

Lemma py_or_precedence (o d : option string) (x : string) :
  py_or o (precedence None d x) = precedence (given o) d x.
Proof. destruct o as [[|c v]|]; reflexivity. Qed.

Lemma find_hex_sound (key decoded : string) : sound (find_hex key decoded).
Proof.
  unfold find_hex, sound.
  destruct (search _ _) as [[[st n] g]|]; discriminate.
Qed.

Lemma find_loop_sound (strings : list bytes) (a s : option string) :
  sound a -> sound s ->
  sound (fst (fst (find_loop strings a s))) /\
  sound (snd (fst (find_loop strings a s))).
Proof.
  revert a s. induction strings as [|b strings IH]; intros a s Ha Hs.
  - split; assumption.
  - cbn [find_loop]. destruct (decode_ascii b) as [decoded|]; [|apply IH; assumption].
    pose proof (find_hex_sound "pstore_addr" decoded) as Ha'.
    pose proof (find_hex_sound "pstore_size" decoded) as Hs'.
    assert (Ha2 : sound (match find_hex "pstore_addr" decoded with
                         | Some v => Some v | None => a end))
      by (destruct (find_hex "pstore_addr" decoded); assumption).
    assert (Hs2 : sound (match find_hex "pstore_size" decoded with
                         | Some v => Some v | None => s end))
      by (destruct (find_hex "pstore_size" decoded); assumption).
    destruct (find_hex "pstore_addr" decoded) as [va|];
      destruct (find_hex "pstore_size" decoded) as [vs|];
      match goal with
      | |- context [if ?b then _ else _] => destruct b
      end;
      try (split; assumption);
      match goal with
      | |- context [find_loop strings ?x ?y] =>
        specialize (IH x y Ha2 Hs2);
        destruct (find_loop strings x y) as [found logged]; exact IH
      end.
Qed.

Lemma find_pstore_config_sound (data : bytes) :
  sound (fst (fst (find_pstore_config data))) /\
  sound (snd (fst (find_pstore_config data))).
Proof. apply find_loop_sound; discriminate. Qed.

(** *** Traces *)

Lemma dump_read_console (t t' : trace) :
  Forall (fun e => console e = true) t -> dump_read (t ++ t') = dump_read t'.
Proof.
  induction 1 as [|e t He _ IH]; [reflexivity|].
  destruct e as [[]| | | | | |]; try discriminate; exact IH.
Qed.

Lemma dump_read_app_console (t t' : trace) :
  Forall (fun e => console e = true) t' -> dump_read (t ++ t') = dump_read t.
Proof.
  intro H. induction t as [|e t IH]; simpl.
  - rewrite <- (app_nil_r t'). rewrite dump_read_console by assumption. reflexivity.
  - destruct e as [| | | | |p [err|data]|]; auto.
Qed.

Section Run.

Variable W : Type.
Variable E : env W.

Lemma run_command_run (cmd : string) (w : W) :
  exists t,
    run E (run_command cmd) w =
    (negb (failed (fst (popen E cmd w))), snd (popen E cmd w),
     EvLog INFO ("[mtklogs] Executing command: " ++ cmd)
       :: EvPopen cmd (fst (popen E cmd w)) :: t) /\
    Forall (fun e => console e = true) t.
Proof.
  unfold run_command. cbn [bind log run].
  destruct (popen E cmd w) as [[lines code|err] w1]; cbn [fst snd failed].
  - rewrite run_bind.
    pose proof (emits_events E (P := fun e => console e = true)
                  (@emits_stream_output _ lines (fun _ => eq_refl)) w1) as Hout.
    unfold events in Hout.
    destruct (run E (stream_output lines) w1) as [[[] w2] t1] eqn:Hrun.
    assert (w2 = w1) as ->.
    { clear Hout. revert t1 Hrun. induction lines as [|l lines IH]; simpl; intros t1.
      - intros [= <- <-]; reflexivity.
      - destruct (run E (stream_output lines) w1) as [[[] w3] t3].
        intros [= <- <-]. eapply IH; reflexivity. }
    simpl in Hout.
    destruct (code =? 0)%Z; cbn.
    + exists (t1 ++ []). split; [reflexivity|]. rewrite app_nil_r; assumption.
    + eexists. split; [reflexivity|].
      apply Forall_app. split; [assumption|]. repeat constructor.
  - cbn. eexists. split; [reflexivity|]. repeat constructor.
Qed.


Lemma run_log_each (l : level) (msgs : list string) (w : W) :
  run E (log_each l msgs) w =
  (tt, w, map (fun m => EvLog l ("[mtklogs] " ++ m)) msgs).
Proof.
  induction msgs as [|m msgs IH]; [reflexivity|].
  cbn [log_each bind log run map]. rewrite IH. reflexivity.
Qed.

Lemma console_logs (l : level) (msgs : list string) :
  l <> WARNING ->
  Forall (fun e => console e = true)
         (map (fun m => EvLog l ("[mtklogs] " ++ m)) msgs).
Proof.
  intro Hl. apply Forall_forall. intros e He. apply in_map_iff in He.
  destruct He as (m & <- & _). destruct l; [reflexivity|congruence|reflexivity].
Qed.

(** What [detect_pstore_addr] returns: for each of the two values, the
    one the scan found in the dump, else the default. *)
Lemma detect_result (w : W) :
  result E detect_pstore_addr w =
  (precedence None (fst (detected (events E detect_pstore_addr w))) PSTORE_ADDRESS,
   precedence None (snd (detected (events E detect_pstore_addr w))) PSTORE_SIZE).
Proof.
  unfold result, events, detected.
  unfold detect_pstore_addr, with_tempdir, extract_with_mtkclient.
  cbn [run bind log].
  destruct (mktemp E w) as [tmp w1].
  rewrite !run_bind.
  destruct (run_command_run
              (mtkclient_cmd expdb (tmp ++ "/expdb.bin") None None true) w1)
    as (t & -> & Ht).
  destruct (popen E (mtkclient_cmd expdb (tmp ++ "/expdb.bin") None None true) w1)
    as [r w2].
  cbn [fst snd].
  destruct (failed r); cbn [negb run bind fst snd app dump_read].
  - rewrite <- app_assoc, dump_read_console by assumption. reflexivity.
  - destruct (read_file E (tmp ++ "/expdb.bin") w2) as [err|data];
      cbn [run bind fst snd app dump_read].
    + rewrite <- app_assoc, dump_read_console by assumption. reflexivity.
    + unfold _find_pstore_config_in_data.
      pose proof (find_pstore_config_sound data) as [Ha Hs].
      destruct (find_pstore_config data) as [[a s] logged] eqn:Hfound.
      cbn [fst snd] in Ha, Hs.
      rewrite !run_bind, run_log_each.
      cbn [run bind fst snd app].
      destruct (truthy a) eqn:Ta; destruct (truthy s) eqn:Ts;
        cbn [andb run fst snd app dump_read];
        rewrite <- app_assoc, dump_read_console by assumption;
        cbn [app dump_read fst snd]; rewrite Hfound; cbn [fst snd];
        repeat match goal with
               | H : truthy ?o = true |- _ =>
                 apply truthy_true in H; destruct H as (? & -> & _)
               | H : truthy ?o = false |- _ =>
                 apply truthy_false in H; [subst o|assumption]
               end;
        reflexivity.
Qed.

(** The run of [extract_expdb], up to what the child process printed. *)
Lemma extract_expdb_run (out : path) (w : W) :
  exists tmp r w2 t,
    let raw := (tmp ++ "/expdb.bin")%string in
    let cmd := mtkclient_cmd expdb raw None None true in
    Forall (fun e => console e = true) t /\
    result E (extract_expdb out) w = negb (failed r) /\
    events E (extract_expdb out) w =
    EvMkTemp tmp
      :: EvLog INFO "[mtklogs] Extracting expdb partition..."
      :: EvLog INFO ("[mtklogs] Executing command: " ++ cmd)
      :: EvPopen cmd r
      :: t ++
      (if failed r
       then [EvRmTemp tmp; EvLog ERROR "[mtklogs] Failed to extract expdb partition"]
       else events E (extract_ascii_strings out raw 4) w2 ++ [EvRmTemp tmp]).
Proof.
  unfold result, events.
  unfold extract_expdb, with_tempdir, extract_with_mtkclient.
  cbn [run bind log].
  destruct (mktemp E w) as [tmp w1].
  rewrite !run_bind.
  destruct (run_command_run
              (mtkclient_cmd expdb (tmp ++ "/expdb.bin") None None true) w1)
    as (t & -> & Ht).
  destruct (popen E (mtkclient_cmd expdb (tmp ++ "/expdb.bin") None None true) w1)
    as [r w2].
  exists tmp, r, w2, t. cbv zeta. split; [assumption|].
  cbn [fst snd].
  destruct (failed r); cbn [negb run bind fst snd app].
  - rewrite <- !app_assoc. split; reflexivity.
  - rewrite !run_bind.
    destruct (run E (extract_ascii_strings out (tmp ++ "/expdb.bin") 4) w2)
      as [[[] w3] t3].
    cbn [run bind fst snd app]. rewrite !app_nil_r, <- !app_assoc.
    split; reflexivity.
Qed.

(** The run of [extract_pstore] after the parameters are resolved. *)
Lemma extract_pstore_run (out : path) (pa ps : option string) (auto da : bool)
      (w : W) :
  exists tmp r w2 t,
    let resolved := result E (resolve_pstore_params pa ps auto) w in
    let raw := (tmp ++ "/pstore.bin")%string in
    let cmd := mtkclient_cmd pstore raw (fst resolved) (snd resolved) da in
    Forall (fun e => console e = true) t /\
    result E (extract_pstore out pa ps auto da) w = negb (failed r) /\
    events E (extract_pstore out pa ps auto da) w =
    events E (resolve_pstore_params pa ps auto) w ++
    EvMkTemp tmp
      :: EvLog INFO ("[mtklogs] Executing command: " ++ cmd)
      :: EvPopen cmd r
      :: t ++
      (if failed r
       then [EvRmTemp tmp; EvLog ERROR "[mtklogs] Failed to extract pstore from memory"]
       else events E (extract_ascii_strings out raw 4) w2 ++ [EvRmTemp tmp]).
Proof.
  unfold result, events.
  unfold extract_pstore, with_tempdir, extract_with_mtkclient.
  rewrite run_bind.
  destruct (run E (resolve_pstore_params pa ps auto) w) as [[[address size] w0] t0].
  cbn [run bind log fst snd].
  destruct (mktemp E w0) as [tmp w1].
  rewrite !run_bind.
  destruct (run_command_run
              (mtkclient_cmd pstore (tmp ++ "/pstore.bin") address size da) w1)
    as (t & -> & Ht).
  destruct (popen E (mtkclient_cmd pstore (tmp ++ "/pstore.bin") address size da) w1)
    as [r w2].
  exists tmp, r, w2, t. cbv zeta. split; [assumption|].
  cbn [fst snd].
  destruct (failed r); cbn [negb run bind fst snd app].
  - rewrite <- !app_assoc. split; reflexivity.
  - rewrite !run_bind.
    destruct (run E (extract_ascii_strings out (tmp ++ "/pstore.bin") 4) w2)
      as [[[] w3] t3].
    cbn [run bind fst snd app]. rewrite !app_nil_r, <- !app_assoc.
    split; reflexivity.
Qed.

End Run.

Lemma resolve_auto_result
      (W : Type) (E : env W) (w : W) (pa ps : option string) :
  let t := events E (resolve_pstore_params pa ps true) w in
  result E (resolve_pstore_params pa ps true) w =
  (precedence (given pa) (fst (detected t)) PSTORE_ADDRESS,
   precedence (given ps) (snd (detected t)) PSTORE_SIZE).
Proof.
  cbv zeta. unfold resolve_pstore_params.
  rewrite events_bind, result_bind.
  set (inner := bind detect_pstore_addr _).
  assert (Hres : result E inner w =
                 (py_or pa (fst (result E detect_pstore_addr w)),
                  py_or ps (snd (result E detect_pstore_addr w)))).
  { unfold inner. rewrite result_bind.
    destruct (result E detect_pstore_addr w) as [da ds]. reflexivity. }
  assert (Hev : events E inner w = events E detect_pstore_addr w).
  { unfold inner. rewrite events_bind.
    destruct (result E detect_pstore_addr w) as [da ds].
    cbn. apply app_nil_r. }
  rewrite Hres, Hev, detect_result. cbn [fst snd].
  rewrite !py_or_precedence.
  set (a := precedence (given pa) _ _). set (s := precedence (given ps) _ _).
  unfold detected.
  rewrite dump_read_app_console by (cbn; repeat constructor).
  reflexivity.
Qed.

Lemma resolve_plain_run
      (W : Type) (E : env W) (w : W) (pa ps : option string) :
  run E (resolve_pstore_params pa ps false) w =
  ((precedence (given pa) None PSTORE_ADDRESS,
    precedence (given ps) None PSTORE_SIZE), w,
   [EvLog INFO
      ("[mtklogs] Extracting pstore from memory (MemAddr: "
         ++ fmt (precedence (given pa) None PSTORE_ADDRESS)
         ++ ". Size: "
         ++ fmt (precedence (given ps) None PSTORE_SIZE) ++ ")")]).
Proof.
  unfold resolve_pstore_params. cbn [bind log run].
  rewrite <- !(py_or_precedence _ None). reflexivity.
Qed.

Lemma precedence_defined (o d : option string) (x : string) :
  x <> EmptyString -> sound d ->
  exists v,
    v <> EmptyString /\ precedence (given o) d x = Some v /\
    filled_from v o d x.
Proof.
  intros Hx Hd. unfold filled_from.
  destruct (given o) as [v|] eqn:Ho.
  - exists v. destruct o as [[|c v']|]; try discriminate.
    injection Ho as <-. repeat split; [discriminate|auto].
  - destruct d as [v|]; cbn.
    + exists v. repeat split; [|auto]. intros ->. apply Hd. reflexivity.
    + exists x. auto.
Qed.

(** Every resolved value is a string, not the empty one, and is the
    override, the detected value or the default. *)
Lemma resolve_defined
      (W : Type) (E : env W) (w : W) (pa ps : option string) (auto : bool) :
  let t := events E (resolve_pstore_params pa ps auto) w in
  exists address size,
    address <> EmptyString /\ size <> EmptyString /\
    result E (resolve_pstore_params pa ps auto) w = (Some address, Some size) /\
    filled_from address pa (fst (detected t)) PSTORE_ADDRESS /\
    filled_from size ps (snd (detected t)) PSTORE_SIZE.
Proof.
  cbv zeta. destruct auto.
  - rewrite (resolve_auto_result E w pa ps).
    set (t := events E (resolve_pstore_params pa ps true) w).
    assert (Hs : sound (fst (detected t)) /\ sound (snd (detected t))).
    { unfold detected. destruct (dump_read t) as [data|].
      - apply find_pstore_config_sound.
      - split; discriminate. }
    destruct Hs as [Ha Hs].
    destruct (@precedence_defined pa (fst (detected t)) PSTORE_ADDRESS)
      as (a & Ha1 & -> & Ha2); [discriminate|assumption|].
    destruct (@precedence_defined ps (snd (detected t)) PSTORE_SIZE)
      as (s & Hs1 & -> & Hs2); [discriminate|assumption|].
    exists a, s. auto.
  - unfold result, events. rewrite resolve_plain_run. cbn [fst snd].
    destruct (@precedence_defined pa None PSTORE_ADDRESS)
      as (a & Ha1 & -> & Ha2); [discriminate|discriminate|].
    destruct (@precedence_defined ps None PSTORE_SIZE)
      as (s & Hs1 & -> & Hs2); [discriminate|discriminate|].
    exists a, s. repeat split; auto.
Qed.

Lemma filter_no_warning (t : trace) :
  Forall no_warning t -> filter is_warning t = [].
Proof.
  induction 1 as [|e t He _ IH]; [reflexivity|].
  cbn. rewrite He. exact IH.
Qed.

(** The warnings of a run of [main]. *)
Lemma main_warnings
      (W : Type) (E : env W) (w : W) (Path : string -> path) (c : cli) :
  filter is_warning (events E (main Path (parse_args c)) w) =
  if warns c then [the_warning] else [].
Proof.
  unfold main. rewrite events_bind, filter_app.
  assert (Hcond : auto_detect_pstore (parse_args c)
                  || (dont_peek_via_da (parse_args c)
                      && negb (command (parse_args c) =? "pstore"))
                  = warns c) by (destruct c; reflexivity).
  rewrite Hcond.
  match goal with
  | |- _ ++ filter _ (events E ?p ?w') = _ =>
    assert (Hrest : filter is_warning (events E p w') = [])
  end.
  { apply filter_no_warning, emits_events.
    unfold log. apply emits_bind; [repeat constructor|intros _].
    destruct (command (parse_args c) =? "expdb");
      [apply no_warning_extract_expdb|].
    destruct (command (parse_args c) =? "pstore");
      [apply no_warning_extract_pstore|constructor]. }
  rewrite Hrest. destruct (warns c); reflexivity.
Qed.

Lemma console_quiet (t : trace) :
  Forall (fun e => console e = true) t -> commands t = [] /\ Forall no_write t.
Proof.
  intro Ht. split.
  - apply commands_nil. revert Ht. apply Forall_impl.
    intros [[]| | | | | |]; cbn; congruence.
  - revert Ht. apply Forall_impl.
    intros [[]| | | | | |]; cbn; unfold no_write; cbn; congruence.
Qed.

Lemma commands_after_extraction
      (W : Type) (E : env W) (out : path) (fn : string) (w : W) (tmp : string) :
  commands (events E (extract_ascii_strings out fn 4) w ++ [EvRmTemp tmp]) = [].
Proof.
  rewrite commands_app, commands_nil; [reflexivity|].
  apply (emits_events E (no_popen_extract_ascii_strings out fn 4)).
Qed.

Lemma extract_expdb_commands (W : Type) (E : env W) (out : path) (w : W) :
  exists tmp r,
    commands (events E (extract_expdb out) w) =
    [(mtkclient_cmd expdb (tmp ++ "/expdb.bin") None None true, r)].
Proof.
  destruct (extract_expdb_run E out w) as (tmp & r & w2 & t & Ht & Hres & Hev).
  cbv zeta in Hev. destruct (console_quiet Ht) as [Hc Hw].
  exists tmp, r.
  rewrite Hev. cbn [commands]. rewrite commands_app, Hc.
  destruct (failed r); [reflexivity|]. cbn [app].
  now rewrite commands_after_extraction.
Qed.

(** *** The string scanner *)

Lemma spans_maximal (m : nat) (data : bytes) (st n : nat) :
  1 <= m ->
  (In (st, n) (spans (printable_run m) data) <->
   maximal_run printable data st n /\ m <= n).
Proof.
  intro Hm. unfold spans.
  change (printable_run m) with (class_run printable m).
  rewrite scan_maximal by assumption. split.
  - intros (i & -> & H). exact H.
  - intros H. exists st. split; [reflexivity|exact H].
Qed.

Lemma spans_apart (m : nat) (data : bytes) :
  1 <= m -> StronglySorted apart (spans (printable_run m) data).
Proof. intro Hm. apply (scan_apart printable Hm). Qed.

Lemma decode_printable (b : bytes) :
  Forall (fun c => printable c = true) b ->
  decode_ascii b = Some (string_of_list_byte b).
Proof.
  intro H. unfold decode_ascii.
  replace (forallb _ b) with true; [reflexivity|].
  symmetry. apply forallb_forall. rewrite Forall_forall in H.
  intros c Hc. specialize (H c Hc).
  unfold printable, in_range in H.
  apply andb_true_iff in H. destruct H as [_ H].
  apply N.leb_le in H. apply N.ltb_lt. lia.
Qed.

Lemma decode_all_printable (l : list bytes) :
  Forall (Forall (fun c => printable c = true)) l ->
  decode_all l = map string_of_list_byte l.
Proof.
  induction 1 as [|b l Hb _ IH]; [reflexivity|].
  cbn [decode_all map]. rewrite (decode_printable Hb), IH. reflexivity.
Qed.

Lemma output_lines_runs (filename : string) (m : nat) (data : bytes) :
  1 <= m ->
  output_lines filename m data =
  header filename
    :: map (fun sp => string_of_list_byte (slice data sp))
           (spans (printable_run m) data).
Proof.
  intro Hm. unfold output_lines, ascii_strings, findall.
  rewrite decode_all_printable, map_map; [reflexivity|].
  apply Forall_forall. intros b Hb. apply in_map_iff in Hb.
  destruct Hb as ([st n] & <- & Hsp).
  apply spans_maximal in Hsp; [|assumption].
  apply (run_slice (proj1 Hsp)).
Qed.

(** *** The scan of a buffer cut in two *)

Lemma spans_bound (m : nat) (B : bytes) (sp : nat * nat) :
  1 <= m -> In sp (spans (printable_run m) B) ->
  fst sp + snd sp <= List.length B.
Proof.
  intros Hm H. destruct sp as [st n].
  apply spans_maximal in H; [|assumption].
  destruct H as [(Hb & _) _]. exact Hb.
Qed.

Lemma ascii_strings_left (m : nat) (B1 B2 : bytes) :
  1 <= m ->
  ascii_strings m B1 = map (slice (B1 ++ B2)) (spans (printable_run m) B1).
Proof.
  intro Hm. unfold ascii_strings, findall. apply map_ext_in.
  intros [st n] H. symmetry. apply slice_left.
  exact (@spans_bound m B1 (st, n) Hm H).
Qed.

Lemma ascii_strings_right (m : nat) (B1 B2 : bytes) :
  ascii_strings m B2 =
  map (slice (B1 ++ B2))
      (map (shift (List.length B1)) (spans (printable_run m) B2)).
Proof.
  unfold ascii_strings, findall. rewrite map_map. apply map_ext.
  intros [st n]. unfold shift. cbn [fst snd]. symmetry. apply slice_right.
Qed.

Lemma ascii_strings_halves (m : nat) (B1 B2 : bytes) :
  1 <= m ->
  ascii_strings m B1 ++ ascii_strings m B2 =
  map (slice (B1 ++ B2)) (scan_halves m B1 B2).
Proof.
  intro Hm. unfold scan_halves. rewrite map_app.
  rewrite <- (@ascii_strings_left m B1 B2 Hm), <- ascii_strings_right.
  reflexivity.
Qed.

Lemma scan_halves_apart (m : nat) (B1 B2 : bytes) (sp : nat * nat) :
  1 <= m -> In sp (scan_halves m B1 B2) ->
  fst sp + snd sp <= List.length B1 \/ List.length B1 <= fst sp.
Proof.
  intros Hm H. unfold scan_halves in H. apply in_app_iff in H.
  destruct H as [H|H].
  - left. eapply spans_bound; eassumption.
  - right. apply in_map_iff in H. destruct H as (sp' & <- & _).
    unfold shift. cbn. lia.
Qed.

(** A cut at a break: the scan of the whole is the scans of the halves
    put together. *)
Lemma spans_cut_at_break (m : nat) (B1 B2 : bytes) :
  1 <= m -> cut_at_break B1 B2 ->
  spans (printable_run m) (B1 ++ B2) = scan_halves m B1 B2.
Proof.
  intros Hm Hcut. unfold spans, scan_halves.
  change (printable_run m) with (class_run printable m).
  rewrite (@scan_app_break byte printable m Hm B1 B2 0).
  - cbn [Nat.add].
    rewrite (@scan_shift byte (class_run printable m) B2 0 (List.length B1)).
    reflexivity.
  - destruct Hcut as [H|[H|[H|H]]].
    + left. exact H.
    + right. right. subst B2. exact I.
    + destruct B1 as [|b0 B1t]; [left; reflexivity|].
      destruct (@exists_last _ (b0 :: B1t)) as (B1' & c & HB1);
        [discriminate|].
      rewrite HB1 in *.
      right. left. exists B1', c. split; [reflexivity|].
      destruct H as (c' & Hc' & Hout).
      rewrite length_app in Hc'. cbn [List.length] in Hc'.
      replace (List.length B1' + 1 - 1) with (List.length B1') in Hc' by lia.
      rewrite <- app_assoc in Hc'. cbn [app] in Hc'.
      rewrite nth_error_app2, Nat.sub_diag in Hc' by lia.
      cbn in Hc'. congruence.
    + right. right. destruct H as (c' & Hc' & Hout).
      rewrite nth_error_app2, Nat.sub_diag in Hc' by lia.
      destruct B2 as [|c B2]; [exact I|]. cbn in Hc'. cbn. congruence.
Qed.

(** A cut inside a run: a maximal run of the whole crosses it. *)
Lemma run_across_cut (B1 B2 : bytes) :
  cut_in_run B1 B2 ->
  exists st n,
    maximal_run printable (B1 ++ B2) st n /\
    st < List.length B1 < st + n.
Proof.
  intros (Hne & Hleft & Hright).
  assert (Hlen : 1 <= List.length B1) by (destruct B1; [congruence|cbn; lia]).
  destruct (@run_containing byte printable _ _ Hleft) as (st & n & Hrun & Hb).
  exists st, n. split; [assumption|]. split; [lia|].
  destruct (Nat.lt_ge_cases (List.length B1) (st + n)) as [|Hle]; [assumption|].
  assert (Heq : st + n = List.length B1) by lia.
  destruct Hrun as (_ & _ & _ & [Hend|Hout]).
  - destruct Hright as (c & Hc & _).
    assert (List.length B1 < List.length (B1 ++ B2))
      by (apply nth_error_Some; congruence).
    lia.
  - rewrite Heq in Hout. exfalso. eapply inside_outside; eassumption.
Qed.

End LogUtilFacts.

(** ** The functions on concrete inputs *)

Module Examples.

Import Regex IO LogUtil Props.
Local Open Scope string_scope.
Local Open Scope list_scope.

(** The scenario of the specification: both values in one extracted
    string. *)
Example detect_both_values :
  find_pstore_config
    ([x00; x01] ++ text "...pstore_addr: 0x48090000 junk pstore_size: 0xe0000..."
                ++ [xff]) =
  ((Some "0x48090000", Some "0xe0000"),
   ["Found pstore_addr: 0x48090000"; "Found pstore_size: 0xe0000"]%string).
Proof. reflexivity. Qed.

(** The patterns ignore case, and the last address seen before both
    values are known wins. *)
Example detect_across_strings :
  find_pstore_config
    (text "PSTORE_ADDR 0X10" ++ [x00] ++ text "pstore_addr::0x20" ++ [x00]
          ++ text "Pstore_Size:0xAb" ++ [x00] ++ text "pstore_addr:0x30") =
  ((Some "0x20", Some "0xAb"),
   ["Found pstore_addr: 0x10"; "Found pstore_addr: 0x20";
    "Found pstore_size: 0xAb"]%string).
Proof. reflexivity. Qed.

(** A detected address combines with the default size. *)
Example detected_address_default_size :
  result (fixed_world (Exited [] 0) (inr (text "pstore_addr:0x1000")))
         (resolve_pstore_params None None true) tt =
  (Some "0x1000", Some "0xe0000").
Proof. reflexivity. Qed.

(** An override wins over the detected value. *)
Example override_over_detected :
  result (fixed_world (Exited [] 0)
                      (inr (text "pstore_addr:0x2000 pstore_size:0x40")))
         (resolve_pstore_params (Some "0x1000") None true) tt =
  (Some "0x1000", Some "0x40").
Proof. reflexivity. Qed.

(** A failed partition read, event by event. *)
Example expdb_failure_trace :
  run (fixed_world
         (Exited [("Port - Device not found  " ++ newline)%string] 1)
         (inl "Permission denied"))
      (extract_expdb "out.txt") tt =
  (false, tt,
   [EvMkTemp "/tmp/t";
    EvLog INFO "[mtklogs] Extracting expdb partition...";
    EvLog INFO
      "[mtklogs] Executing command: python mtkclient/mtk.py r expdb /tmp/t/expdb.bin ";
    EvPopen "python mtkclient/mtk.py r expdb /tmp/t/expdb.bin "
            (Exited [("Port - Device not found  " ++ newline)%string] 1);
    EvPrint "[mtkclient] Port - Device not found";
    EvLog ERROR "[mtklogs] Command failed with return code 1";
    EvRmTemp "/tmp/t";
    EvLog ERROR "[mtklogs] Failed to extract expdb partition"]).
Proof. reflexivity. Qed.

(** The peek command without the download agent. *)
Example peek_without_da :
  commands
    (events (fixed_world (LaunchError "No such file") (inl "Permission denied"))
            (main (fun s => s)
                  (parse_args (Cli "pstore" "out.txt" None (Some "0x1000") None
                                   false true)))
            tt) =
  [("python mtkclient/mtk.py  peek 0x1000 0xe0000 --filename /tmp/t/pstore.bin ",
    LaunchError "No such file")].
Proof. reflexivity. Qed.

End Examples.

(** ** The claims of the specification *)

Module Claims.

Import Regex IO LogUtil Props IOFacts RegexFacts LogUtilFacts.
Local Open Scope string_scope.
Local Open Scope list_scope.

(** *** Parameter resolution *)

(** C2, as amended.  With auto-detect, [resolve_pstore_params] returns,
    independently for address and size: the CLI override when it is
    given and not the empty string, else the value the detection scan
    found in the expdb dump of this run, else the hardcoded default.  An
    override that is the empty string counts as no override. *)
Theorem resolve_auto_detect_precedence
        (W : Type) (E : env W) (w : W) (pa ps : option string) :
  let t := events E (resolve_pstore_params pa ps true) w in
  result E (resolve_pstore_params pa ps true) w =
  (precedence (given pa) (fst (detected t)) PSTORE_ADDRESS,
   precedence (given ps) (snd (detected t)) PSTORE_SIZE).
Proof.
  exact (resolve_auto_result E w pa ps).
Qed.

(** C2, the claim as it stands fails: the override [''] is present, and
    the result is the default, not the override. *)
Lemma empty_override_with_auto_detect :
  let E := fixed_world (Exited [] 1) (inl "Permission denied") in
  let got := result E (resolve_pstore_params (Some EmptyString) None true) tt in
  let t := events E (resolve_pstore_params (Some EmptyString) None true) tt in
  got = (Some "0x48090000", Some "0xe0000") /\
  got <> (precedence (Some EmptyString) (fst (detected t)) PSTORE_ADDRESS,
          precedence None (snd (detected t)) PSTORE_SIZE).
Proof. vm_compute. split; [reflexivity|discriminate]. Qed.

(** C7, as amended.  Without auto-detect, [resolve_pstore_params] does
    nothing but log one line: no temporary directory, no command, no
    file is read.  It returns, for address and size, the CLI override
    when it is given and not the empty string, else the hardcoded
    default. *)
Theorem resolve_without_auto_detect
        (W : Type) (E : env W) (w : W) (pa ps : option string) :
  let address := precedence (given pa) None PSTORE_ADDRESS in
  let size := precedence (given ps) None PSTORE_SIZE in
  run E (resolve_pstore_params pa ps false) w =
  ((address, size), w,
   [EvLog INFO ("[mtklogs] Extracting pstore from memory (MemAddr: "
                  ++ fmt address ++ ". Size: " ++ fmt size ++ ")")]) /\
  commands (events E (resolve_pstore_params pa ps false) w) = [].
Proof.
  cbv zeta. unfold events. rewrite resolve_plain_run. split; reflexivity.
Qed.

(** C7, the claim as it stands fails: the override [''] is present, and
    the result is the default. *)
Lemma empty_override_without_auto_detect :
  let E := fixed_world (Exited [] 0) (inl "Permission denied") in
  result E (resolve_pstore_params (Some EmptyString) None false) tt
  = (Some "0x48090000", Some "0xe0000") /\
  result E (resolve_pstore_params (Some EmptyString) None false) tt
  <> (precedence (Some EmptyString) None PSTORE_ADDRESS,
      precedence None None PSTORE_SIZE).
Proof. vm_compute. split; [reflexivity|discriminate]. Qed.

(** *** The extraction pipelines *)

(** C8.  Whatever the overrides, the auto-detect flag and the answers of
    the world (a failed expdb read, an unreadable dump, a scan that
    finds one value or none), [resolve_pstore_params] returns two
    strings, neither [None] nor empty, each of them the override, the
    detected value or the hardcoded default, and they are the address
    and size in the peek command that [extract_pstore] runs next. *)
Theorem pstore_call_fully_defined
        (W : Type) (E : env W) (w : W) (out : path) (pa ps : option string)
        (auto da : bool) :
  let found := detected (events E (resolve_pstore_params pa ps auto) w) in
  exists address size tmp r after,
    address <> EmptyString /\ size <> EmptyString /\
    filled_from address pa (fst found) PSTORE_ADDRESS /\
    filled_from size ps (snd found) PSTORE_SIZE /\
    result E (resolve_pstore_params pa ps auto) w = (Some address, Some size) /\
    let cmd := mtkclient_cmd pstore (tmp ++ "/pstore.bin")
                             (Some address) (Some size) da in
    events E (extract_pstore out pa ps auto da) w =
    events E (resolve_pstore_params pa ps auto) w ++
    EvMkTemp tmp
      :: EvLog INFO ("[mtklogs] Executing command: " ++ cmd)
      :: EvPopen cmd r :: after.
Proof.
  cbv zeta.
  destruct (resolve_defined E w pa ps auto)
    as (address & size & Ha & Hs & Hres & Hfa & Hfs).
  destruct (extract_pstore_run E out pa ps auto da w)
    as (tmp & r & w2 & t & _ & _ & Hev).
  cbv zeta in Hev. rewrite Hres in Hev. cbn [fst snd] in Hev.
  exists address, size, tmp, r. eexists.
  repeat (split; [assumption|]). exact Hev.
Qed.

(** C4.  Each pipeline runs its extraction command last.  When that
    command fails (non-zero exit code, or it could not be launched) the
    pipeline returns [False] and no file is written:
    [extract_ascii_strings] is not reached. *)
Theorem failed_extraction_writes_nothing
        (W : Type) (E : env W) (w : W) (out : path) :
  (exists tmp r,
      commands (events E (extract_expdb out) w) =
      [(mtkclient_cmd expdb (tmp ++ "/expdb.bin") None None true, r)] /\
      (failed r = true ->
       result E (extract_expdb out) w = false /\
       Forall no_write (events E (extract_expdb out) w))) /\
  (forall (pa ps : option string) (auto da : bool),
      exists tmp address size r,
        commands (events E (extract_pstore out pa ps auto da) w) =
        commands (events E (resolve_pstore_params pa ps auto) w) ++
        [(mtkclient_cmd pstore (tmp ++ "/pstore.bin") address size da, r)] /\
        (failed r = true ->
         result E (extract_pstore out pa ps auto da) w = false /\
         Forall no_write (events E (extract_pstore out pa ps auto da) w))).
Proof.
  split.
  - destruct (extract_expdb_run E out w) as (tmp & r & w2 & t & Ht & Hres & Hev).
    cbv zeta in Hev. destruct (console_quiet Ht) as [Hc Hw].
    exists tmp, r. split.
    + rewrite Hev. cbn [commands]. rewrite commands_app, Hc.
      destruct (failed r); [reflexivity|]. cbn [app].
      now rewrite commands_after_extraction.
    + intro Hf. rewrite Hres, Hev, Hf. split; [reflexivity|].
      repeat (constructor; [reflexivity|]).
      apply Forall_app. split; [assumption|]. repeat constructor.
  - intros pa ps auto da.
    destruct (extract_pstore_run E out pa ps auto da w)
      as (tmp & r & w2 & t & Ht & Hres & Hev).
    cbv zeta in Hev. destruct (console_quiet Ht) as [Hc Hw].
    exists tmp, (fst (result E (resolve_pstore_params pa ps auto) w)),
      (snd (result E (resolve_pstore_params pa ps auto) w)), r.
    split.
    + rewrite Hev, commands_app. f_equal.
      cbn [commands]. rewrite commands_app, Hc.
      destruct (failed r); [reflexivity|]. cbn [app].
      now rewrite commands_after_extraction.
    + intro Hf. rewrite Hres, Hev, Hf. split; [reflexivity|].
      apply Forall_app. split.
      * apply (emits_events E (no_write_resolve_pstore_params pa ps auto)).
      * repeat (constructor; [reflexivity|]).
        apply Forall_app. split; [assumption|]. repeat constructor.
Qed.

(** *** The command line *)

(** C1, on the code.  The value of [--mtkclient-args] has no effect on
    the program: [main] never reads it.  On the command line
    [expdb out.txt --mtkclient-args=--debug] the command that runs is the
    partition read followed by the empty global [MTK_CLIENT_ARGS]. *)
Theorem mtkclient_args_not_forwarded :
  (forall (Path : string -> path) (c : cli) (a : option string),
      main Path (parse_args (with_mtkclient_args c a)) = main Path (parse_args c)) /\
  let c := Cli "expdb" "out.txt" (Some "--debug") None None false false in
  commands (events (fixed_world (Exited [] 0) (inr []))
                   (main (fun s => s) (parse_args c)) tt) =
  [("python mtkclient/mtk.py r expdb /tmp/t/expdb.bin ", Exited [] 0)].
Proof. split; [intros Path [] a; reflexivity|reflexivity]. Qed.

(** C5, on the code.  With the command line [expdb <file>
    --dont-peek-via-da] no warning is logged, although a pstore-only
    flag was given with [expdb]; execution proceeds with the partition
    read. *)
Theorem dont_peek_via_da_with_expdb_not_warned
        (W : Type) (E : env W) (w : W) (Path : string -> path)
        (fn : string) (a pa ps : option string) :
  let c := Cli "expdb" fn a pa ps false true in
  filter is_warning (events E (main Path (parse_args c)) w) = [] /\
  exists tmp r,
    commands (events E (main Path (parse_args c)) w) =
    [(mtkclient_cmd expdb (tmp ++ "/expdb.bin") None None true, r)].
Proof.
  cbv zeta. split; [rewrite main_warnings; reflexivity|].
  unfold main. cbn [parse_args auto_detect_pstore dont_peek_via_da command
                      flag_auto_detect_pstore flag_dont_peek_via_da cli_command
                      negb orb andb filename cli_filename].
  change ("expdb" =? "expdb") with true. cbv iota.
  cbn [bind log]. unfold events. cbn [run].
  destruct (extract_expdb_commands E (Path fn) w) as (tmp & r & Hc).
  exists tmp, r. unfold events in Hc.
  destruct (run E (extract_expdb (Path fn)) w) as [[b w'] t].
  cbn [snd commands] in *. exact Hc.
Qed.

(** C10.  The wrong-command warning is logged, once, exactly when
    [--auto-detect-pstore] is given, or [--dont-peek-via-da] is not given
    and the command is not [pstore]; no other warning is ever logged.
    So [expdb] with no pstore-only flag is warned, and so is [pstore]
    with [--auto-detect-pstore]. *)
Theorem wrong_command_warning_condition
        (W : Type) (E : env W) (w : W) (Path : string -> path) :
  (forall c : cli,
      filter is_warning (events E (main Path (parse_args c)) w) =
      if flag_auto_detect_pstore c
         || (negb (flag_dont_peek_via_da c) && negb (cli_command c =? "pstore"))
      then [EvLog WARNING
              "[mtklogs] This argument is valid only with pstore command, ignoring"]
      else []) /\
  (forall fn a pa ps,
      In the_warning
         (events E (main Path (parse_args (Cli "expdb" fn a pa ps false false))) w)) /\
  (forall fn a pa ps d,
      In the_warning
         (events E (main Path (parse_args (Cli "pstore" fn a pa ps true d))) w)).
Proof.
  assert (Hin : forall c, warns c = true ->
                  In the_warning (events E (main Path (parse_args c)) w)).
  { intros c Hc. pose proof (main_warnings E w Path c) as H.
    rewrite Hc in H.
    assert (Hi : In the_warning
                    (filter is_warning (events E (main Path (parse_args c)) w)))
      by (rewrite H; left; reflexivity).
    apply filter_In in Hi. exact (proj1 Hi). }
  split; [|split].
  - intro c. apply main_warnings.
  - intros. apply Hin. reflexivity.
  - intros. apply Hin. reflexivity.
Qed.



(** *** The string scanner *)




(** C9.  [ascii_strings m] is the scan of the program: that of
    [extract_ascii_strings] with [m] the minimum length, and that of the
    detection with [m = 4].  Cut a buffer in two and scan each half
    ([m >= 1]).  Every match of a half is a piece of the whole buffer
    that lies inside that half, so no match of the two scans put
    together crosses the cut.  The scan of the whole buffer returns
    exactly its maximal runs of at least [m] bytes, in order and apart
    from one another; a run among them that crosses the cut is in
    neither half's result.  When the cut falls at a break in the
    printable text, the scan of the whole is the two scans one after the
    other; when it falls inside a run, a maximal run of the whole
    crosses it, and if it is long enough to be a match only the scan of
    the whole finds it. *)
Theorem scan_halves_never_cross
        (m : nat) (B1 B2 : bytes) :
  1 <= m ->
  let B := B1 ++ B2 in
  let cut := List.length B1 in
  let found1 := spans (printable_run m) B1 in
  let found2 := spans (printable_run m) B2 in
  let found := spans (printable_run m) B in
  (ascii_strings m B1 = map (slice B) found1 /\
   forall sp, In sp found1 -> fst sp + snd sp <= cut) /\
  (ascii_strings m B2 = map (slice B) (map (shift cut) found2) /\
   forall sp, In sp found2 -> fst sp + snd sp <= List.length B2) /\
  (ascii_strings m B1 ++ ascii_strings m B2 =
   map (slice B) (scan_halves m B1 B2) /\
   forall sp, In sp (scan_halves m B1 B2) ->
              fst sp + snd sp <= cut \/ cut <= fst sp) /\
  (ascii_strings m B = map (slice B) found /\
   (forall st n, In (st, n) found <->
                 maximal_run printable B st n /\ m <= n) /\
   StronglySorted apart found) /\
  (forall st n, In (st, n) found -> st < cut < st + n ->
                ~ In (st, n) (scan_halves m B1 B2)) /\
  (cut_at_break B1 B2 ->
   ascii_strings m B = ascii_strings m B1 ++ ascii_strings m B2) /\
  (cut_in_run B1 B2 ->
   exists st n,
     maximal_run printable B st n /\ st < cut < st + n /\
     (m <= n -> In (st, n) found /\ ~ In (st, n) (scan_halves m B1 B2))).
Proof.
  intro Hm. cbv zeta.
  assert (Hcross : forall st n,
             st < List.length B1 < st + n ->
             ~ In (st, n) (scan_halves m B1 B2)).
  { intros st n Hc Hin. apply (@scan_halves_apart m B1 B2 (st, n) Hm) in Hin.
    cbn in Hin. lia. }
  refine (conj (conj _ _) (conj (conj _ _) (conj (conj _ _)
            (conj (conj eq_refl (conj _ _)) (conj _ (conj _ _)))))).
  - apply ascii_strings_left. exact Hm.
  - intros sp H. eapply spans_bound; eassumption.
  - apply ascii_strings_right.
  - intros sp H. eapply spans_bound; eassumption.
  - apply ascii_strings_halves. exact Hm.
  - intros sp H. eapply scan_halves_apart; eassumption.
  - intros st n. apply spans_maximal. exact Hm.
  - apply spans_apart. exact Hm.
  - intros st n _. apply Hcross.
  - intro Hcut. rewrite (@ascii_strings_halves m B1 B2 Hm).
    unfold ascii_strings, findall. rewrite (@spans_cut_at_break m B1 B2 Hm Hcut).
    reflexivity.
  - intro Hcut. destruct (@run_across_cut B1 B2 Hcut) as (st & n & Hrun & Hc).
    exists st, n. split; [assumption|]. split; [assumption|].
    intro Hn. split; [|apply Hcross; assumption].
    apply spans_maximal; [assumption|]. split; assumption.
Qed.

Lemma scan_halves_never_cross_example :
  1 <= 4 /\
  ascii_strings 4 (text "boot" ++ text "log ") = [text "bootlog "] /\
  ascii_strings 4 (text "boot") ++ ascii_strings 4 (text "log ") =
  [text "boot"; text "log "] /\
  ascii_strings 4 ((text "boot" ++ [x00]) ++ text "log ") =
  ascii_strings 4 (text "boot" ++ [x00]) ++ ascii_strings 4 (text "log ") /\
  forall sp, In sp (scan_halves 4 (text "boot") (text "log ")) ->
             fst sp + snd sp <= 4 \/ 4 <= fst sp.
Proof.
  assert (Hm : 1 <= 4) by lia.
  split; [exact Hm|]. split; [reflexivity|]. split; [reflexivity|].
  split.
  - pose proof (@scan_halves_never_cross 4 (text "boot" ++ [x00]) (text "log ")
                  Hm) as H.
    cbv zeta in H. destruct H as (_ & _ & _ & _ & _ & Hbreak & _).
    apply Hbreak. right. right. left. exists x00. split; reflexivity.
  - pose proof (@scan_halves_never_cross 4 (text "boot") (text "log ") Hm) as H.
    cbv zeta in H. destruct H as (_ & _ & (_ & Hcut) & _).
    exact Hcut.
Defined.

End Claims.

(** ** More facts, for the rest of the code *)

Module CoverageFacts.

Import Regex IO LogUtil Props IOFacts RegexFacts LogUtilFacts.
Local Open Scope string_scope.
Local Open Scope list_scope.

(** *** The scan, for any pattern and any minimum length *)

Section AnyPattern.

Variable C : Type.

Lemma backtrack_found (R : Type) (f : nat -> option R) (lo k : nat) (r : R) :
  backtrack f lo k = Some r -> exists j, lo <= j <= k /\ f j = Some r.
Proof.
  induction k as [|k IH]; cbn [backtrack].
  - destruct (Nat.ltb_spec 0 lo) as [_|Hlo]; [discriminate|].
    destruct (f 0) eqn:Hf; [|discriminate].
    intros [= ->]. exists 0. split; [lia|assumption].
  - destruct (Nat.ltb_spec (S k) lo) as [_|Hlo]; [discriminate|].
    destruct (f (S k)) eqn:Hf.
    + intros [= ->]. exists (S k). split; [lia|assumption].
    + intro H. destruct (IH H) as (j & Hj & Hfj). exists j. split; [lia|assumption].
Qed.

Lemma count_prefix_firstn (f : C -> bool) (limit : option nat) (s : list C) (j : nat) :
  j <= count_prefix f limit s ->
  Forall (fun c => f c = true) (firstn j s) /\ List.length (firstn j s) = j.
Proof.
  revert limit j. induction s as [|c s IH]; intros limit j Hj.
  - assert (j = 0) as -> by (destruct limit as [[|n]|]; cbn in Hj; lia).
    split; [constructor|reflexivity].
  - destruct j as [|j]; [split; [constructor|reflexivity]|].
    assert (Hc : f c = true /\ j <= count_prefix f (option_map pred limit) s).
    { destruct limit as [[|n]|]; cbn in Hj |- *; try lia;
        destruct (f c); try lia; split; auto; lia. }
    destruct Hc as [Hc Hj']. destruct (IH _ _ Hj') as [Hall Hlen].
    cbn [firstn List.length]. split; [constructor; assumption|congruence].
Qed.

(** Every match the scan reports is the result of an attempt at its
    start. *)
Lemma at_position_attempt (p : pattern C) (skip : nat) (s : list C) (n : nat) :
  In n (fst (at_position p skip s)) ->
  exists ma g, match_here p ma 0 s = Some (n, g).
Proof.
  unfold at_position. destruct skip; [|intros []].
  destruct (match_here p false 0 s) as [[[|k] g]|] eqn:H0; cbn [fst].
  - destruct (match_here p true 0 s) as [[[|k'] g']|] eqn:H1; cbn [fst].
    + intros [<-|[]]. eauto.
    + intros [<-|[<-|[]]]; eauto.
    + intros [<-|[]]. eauto.
  - intros [<-|[]]. eauto.
  - intros [].
Qed.

Lemma scan_attempt (p : pattern C) (s : list C) (skip pos st n : nat) :
  In (st, n) (scan p skip pos s) ->
  pos <= st /\
  exists ma g, match_here p ma 0 (skipn (st - pos) s) = Some (n, g).
Proof.
  revert skip pos. induction s as [|c s IH]; intros skip pos; cbn [scan];
    destruct (at_position p skip _) as [here skip'] eqn:Hat;
    rewrite in_app_iff, in_map_iff.
  - intros [(k & [= <- <-] & Hk)|[]]. split; [lia|].
    rewrite Nat.sub_diag. cbn [skipn].
    apply (at_position_attempt p skip []). rewrite Hat. exact Hk.
  - intros [(k & [= <- <-] & Hk)|Hin].
    + split; [lia|]. rewrite Nat.sub_diag. cbn [skipn].
      apply (at_position_attempt p skip (c :: s)). rewrite Hat. exact Hk.
    + destruct (IH _ _ Hin) as (Hpos & ma & g & Hm). split; [lia|].
      exists ma, g. replace (st - pos) with (S (st - S pos)) by lia.
      exact Hm.
Qed.

(** The capture group of a match is text of a group item of the
    pattern: characters of its class, at least [rmin] of them. *)
Lemma match_here_group (p : pattern C) (ma : bool) (c : nat) (s : list C)
      (n : nat) (g : list C) :
  match_here p ma c s = Some (n, Some g) ->
  exists a, In a p /\ grp a = true /\ rmin a <= List.length g /\
            Forall (fun x => cls a x = true) g.
Proof.
  revert c s n g. induction p as [|a p IH]; intros c s n g; cbn [match_here].
  - destruct (ma && (c =? 0)%nat); discriminate.
  - intro H. apply backtrack_found in H. destruct H as (j & Hj & Hf).
    destruct (match_here p ma (c + j) (skipn j s)) as [[n' g']|] eqn:Hm;
      [|discriminate].
    destruct (grp a) eqn:Hg.
    + injection Hf as <- <-. exists a.
      destruct (@count_prefix_firstn (cls a) (rmax a) s j) as [Hall Hlen];
        [lia|].
      repeat split; [left; reflexivity|assumption|lia|assumption].
    + injection Hf as <- ->.
      destruct (IH _ _ _ _ Hm) as (a' & Hin & Ha').
      exists a'. split; [right; assumption|assumption].
Qed.

Lemma match_here_group_set (p : pattern C) (ma : bool) (c : nat) (s : list C)
      (n : nat) (g : option (list C)) :
  match_here p ma c s = Some (n, g) ->
  (exists a, In a p /\ grp a = true) -> g <> None.
Proof.
  revert c s n g. induction p as [|a p IH]; intros c s n g; cbn [match_here].
  - intros _ (a & [] & _).
  - intros H (a' & Hin & Ha'). apply backtrack_found in H.
    destruct H as (j & Hj & Hf).
    destruct (match_here p ma (c + j) (skipn j s)) as [[n' g']|] eqn:Hm;
      [|discriminate].
    destruct (grp a) eqn:Hg.
    + injection Hf as <- <-. discriminate.
    + injection Hf as <- <-. apply (IH _ _ _ _ Hm).
      destruct Hin as [->|Hin]; [congruence|]. eauto.
Qed.

Lemma search_from_attempt (p : pattern C) (s : list C) (pos st n : nat)
      (g : option (list C)) :
  search_from p pos s = Some (st, n, g) ->
  exists s', match_here p false 0 s' = Some (n, g).
Proof.
  revert pos. induction s as [|c s IH]; intro pos; cbn [search_from].
  - destruct (match_here p false 0 []) as [[n' g']|] eqn:Hm; [|discriminate].
    intros [= <- <- <-]. eauto.
  - destruct (match_here p false 0 (c :: s)) as [[n' g']|] eqn:Hm.
    + intros [= <- <- <-]. eauto.
    + apply IH.
Qed.

End AnyPattern.

(** What [findall] returns for [[\x20-\x7E]{m,}], whatever [m]. *)
Lemma ascii_strings_sound (m : nat) (data b : bytes) :
  In b (ascii_strings m data) ->
  m <= List.length b /\ Forall (fun c => printable c = true) b.
Proof.
  unfold ascii_strings, findall, spans. intro H.
  apply in_map_iff in H. destruct H as ([st n] & <- & Hin).
  apply scan_attempt in Hin. destruct Hin as (_ & ma & g & Hm).
  rewrite Nat.sub_0_r in Hm.
  change (printable_run m) with (class_run printable m) in Hm.
  rewrite match_here_one_class in Hm. cbv zeta in Hm.
  destruct (Nat.ltb_spec (count_prefix printable None (skipn st data)) m);
    [discriminate|].
  cbn [orb] in Hm.
  destruct (ma && _); [discriminate|]. injection Hm as <- _.
  unfold slice. cbn [fst snd].
  destruct (@count_prefix_firstn _ printable None (skipn st data)
              (count_prefix printable None (skipn st data)) (le_n _))
    as [Hall Hlen].
  split; [lia|assumption].
Qed.

Lemma filter_none (f : event -> bool) (t : trace) :
  Forall (fun e => f e = false) t -> filter f t = [].
Proof.
  induction 1 as [|e t He _ IH]; [reflexivity|].
  cbn [filter]. rewrite He. exact IH.
Qed.

(** *** What the functions leave alone *)

Lemma no_temp_run_command (cmd : string) : emits no_temp (run_command cmd).
Proof. unfold run_command. cbn [bind log]. emits_auto. Qed.

Lemma no_temp_extract_ascii_strings (out filename : string) (m : nat) :
  emits no_temp (extract_ascii_strings out filename m).
Proof. unfold extract_ascii_strings, log. emits_auto. Qed.

Lemma no_temp_find (data : bytes) : emits no_temp (_find_pstore_config_in_data data).
Proof.
  unfold _find_pstore_config_in_data.
  destruct (find_pstore_config data) as [found logged].
  apply emits_bind; [apply emits_log_each; reflexivity|intro; constructor].
Qed.

(** *** Prefixes *)

Lemma tagged_stream_output (lines : list string) :
  emits tagged (stream_output lines).
Proof.
  induction lines as [|l lines IH]; cbn [stream_output].
  - constructor.
  - constructor; [reflexivity|exact IH].
Qed.

Lemma tagged_log_each (l : level) (msgs : list string) :
  emits tagged (log_each l msgs).
Proof.
  induction msgs as [|m msgs IH]; cbn [log_each log bind].
  - constructor.
  - constructor; [reflexivity|exact IH].
Qed.

Ltac tag_step :=
  first [ apply tagged_stream_output
        | apply tagged_log_each
        | emits_step
        | exact I ].

Lemma tagged_run_command (cmd : string) :
  starts_with "python mtkclient/mtk.py " cmd = true -> emits tagged (run_command cmd).
Proof.
  intro H. unfold run_command. cbn [bind log].
  constructor; [reflexivity|]. constructor; [intro; exact H|].
  intros r. repeat tag_step.
Qed.

Lemma tagged_extract_with_mtkclient
      (kind : extraction) (out : string) (a s : option string) (da : bool) :
  emits tagged (extract_with_mtkclient kind out a s da).
Proof.
  unfold extract_with_mtkclient. apply tagged_run_command.
  destruct kind; reflexivity.
Qed.

Lemma tagged_extract_ascii_strings (out filename : string) (m : nat) :
  emits tagged (extract_ascii_strings out filename m).
Proof. unfold extract_ascii_strings, log. repeat tag_step. Qed.

Lemma tagged_detect_pstore_addr : emits tagged detect_pstore_addr.
Proof.
  unfold detect_pstore_addr, with_tempdir, _find_pstore_config_in_data, log.
  repeat first [ apply tagged_extract_with_mtkclient | tag_step ].
Qed.

Lemma tagged_resolve_pstore_params (pa ps : option string) (auto : bool) :
  emits tagged (resolve_pstore_params pa ps auto).
Proof.
  unfold resolve_pstore_params, log. destruct auto.
  - repeat first [ apply tagged_detect_pstore_addr | tag_step ].
  - repeat tag_step.
Qed.

Lemma tagged_extract_expdb (out : path) : emits tagged (extract_expdb out).
Proof.
  unfold extract_expdb, with_tempdir, log.
  repeat first
    [ apply tagged_extract_with_mtkclient
    | apply tagged_extract_ascii_strings
    | tag_step ].
Qed.

Lemma tagged_extract_pstore
      (out : path) (pa ps : option string) (auto da : bool) :
  emits tagged (extract_pstore out pa ps auto da).
Proof.
  unfold extract_pstore, with_tempdir, log.
  repeat first
    [ apply tagged_resolve_pstore_params
    | apply tagged_extract_with_mtkclient
    | apply tagged_extract_ascii_strings
    | tag_step ].
Qed.

(** *** Runs of the functions *)




Section Run.

Variable W : Type.
Variable E : env W.


Lemma events_with_tempdir (A : Type) (body : string -> io A) (w : W) :
  events E (with_tempdir body) w =
  EvMkTemp (fst (mktemp E w))
    :: events E (body (fst (mktemp E w))) (snd (mktemp E w))
    ++ [EvRmTemp (fst (mktemp E w))].
Proof.
  unfold events, with_tempdir. cbn [run].
  destruct (mktemp E w) as [d w1]. cbn [fst snd]. rewrite run_bind.
  destruct (run E (body d) w1) as [[a w2] t]. reflexivity.
Qed.

Lemma result_with_tempdir (A : Type) (body : string -> io A) (w : W) :
  result E (with_tempdir body) w =
  result E (body (fst (mktemp E w))) (snd (mktemp E w)).
Proof.
  unfold result, with_tempdir. cbn [run].
  destruct (mktemp E w) as [d w1]. cbn [fst snd]. rewrite run_bind.
  destruct (run E (body d) w1) as [[a w2] t]. reflexivity.
Qed.

Lemma events_log (A : Type) (l : level) (msg : string) (k : io A) (w : W) :
  events E (bind (log l msg) (fun _ => k)) w =
  EvLog l ("[mtklogs] " ++ msg) :: events E k w.
Proof.
  unfold events. cbn [log bind run].
  destruct (run E k w) as [[a w1] t]. reflexivity.
Qed.

Lemma result_log (A : Type) (l : level) (msg : string) (k : io A) (w : W) :
  result E (bind (log l msg) (fun _ => k)) w = result E k w.
Proof.
  unfold result. cbn [log bind run].
  destruct (run E k w) as [[a w1] t]. reflexivity.
Qed.

Lemma run_command_commands (cmd : string) (w : W) :
  commands (events E (run_command cmd) w) = [(cmd, fst (popen E cmd w))] /\
  result E (run_command cmd) w = negb (failed (fst (popen E cmd w))) /\
  filter is_read (events E (run_command cmd) w) = [].
Proof.
  destruct (run_command_run E cmd w) as (t & Hrun & Ht).
  unfold events, result. rewrite Hrun. cbn [fst snd commands filter is_read].
  destruct (console_quiet Ht) as [-> _].
  repeat split. apply filter_none. revert Ht. apply Forall_impl.
  intros [[]| | | | | |]; cbn; congruence.
Qed.

(** A block under [with tempfile.TemporaryDirectory()] that makes no
    other temporary directory: one lifetime. *)
Lemma temp_with_tempdir (A : Type) (body : string -> io A) (w : W) :
  (forall d, emits no_temp (body d)) ->
  filter is_temp (events E (with_tempdir body) w) = lifetimes [fst (mktemp E w)].
Proof.
  intro Hbody. rewrite events_with_tempdir. cbn [filter is_temp].
  rewrite filter_app, filter_none by (apply emits_events, Hbody).
  reflexivity.
Qed.

Lemma temp_detect_pstore_addr (w : W) :
  filter is_temp (events E detect_pstore_addr w) = lifetimes [fst (mktemp E w)].
Proof.
  unfold detect_pstore_addr. apply temp_with_tempdir. intro d.
  unfold extract_with_mtkclient, log.
  repeat first
    [ apply no_temp_run_command | apply no_temp_find | emits_step ].
Qed.

Lemma temp_resolve_pstore_params (pa ps : option string) (auto : bool) (w : W) :
  exists dirs,
    filter is_temp (events E (resolve_pstore_params pa ps auto) w) =
    lifetimes dirs /\
    List.length dirs = if auto then 1 else 0.
Proof.
  destruct auto.
  - exists [fst (mktemp E w)]. split; [|reflexivity].
    unfold resolve_pstore_params. rewrite !events_bind, !filter_app.
    rewrite temp_detect_pstore_addr.
    rewrite (filter_none is_temp (t := events E _ (world_after E detect_pstore_addr w))).
    + rewrite filter_none; [reflexivity|].
      apply emits_events.
      destruct (result E _ w) as [a s]. unfold log. emits_auto.
    + apply emits_events.
      destruct (result E detect_pstore_addr w) as [a s]. constructor.
  - exists []. split; [|reflexivity].
    unfold events. rewrite resolve_plain_run. reflexivity.
Qed.

Lemma temp_extract_expdb (out : path) (w : W) :
  filter is_temp (events E (extract_expdb out) w) = lifetimes [fst (mktemp E w)].
Proof.
  unfold extract_expdb. rewrite events_bind, filter_app.
  rewrite temp_with_tempdir.
  - rewrite filter_none; [reflexivity|].
    apply emits_events. unfold log. emits_auto.
  - intro d. unfold extract_with_mtkclient, log.
    repeat first
      [ apply no_temp_run_command
      | apply no_temp_extract_ascii_strings
      | emits_step ].
Qed.

Lemma temp_extract_pstore
      (out : path) (pa ps : option string) (auto da : bool) (w : W) :
  exists dirs,
    filter is_temp (events E (extract_pstore out pa ps auto da) w) =
    lifetimes dirs /\
    List.length dirs = if auto then 2 else 1.
Proof.
  destruct (temp_resolve_pstore_params pa ps auto w) as (dirs & Hd & Hlen).
  unfold extract_pstore. rewrite events_bind, filter_app, Hd.
  destruct (result E (resolve_pstore_params pa ps auto) w) as [a s].
  set (w1 := world_after E _ w).
  exists (dirs ++ [fst (mktemp E w1)]). split.
  - unfold lifetimes. rewrite flat_map_app. f_equal.
    rewrite events_bind, filter_app.
    rewrite temp_with_tempdir.
    + rewrite filter_none; [apply app_nil_r|].
      apply emits_events. unfold log. emits_auto.
    + intro d. unfold extract_with_mtkclient, log.
      repeat first
        [ apply no_temp_run_command
        | apply no_temp_extract_ascii_strings
        | emits_step ].
  - rewrite length_app, Hlen. destruct auto; reflexivity.
Qed.

End Run.

(** *** Writes *)

Ltac write_step := first [ emits_step | exact I ].

Lemma writes_run_command (out cmd : string) :
  emits (writes_to out) (run_command cmd).
Proof.
  unfold run_command. cbn [bind log].
  repeat first [ apply emits_stream_output; intros | write_step ].
Qed.

Lemma writes_extract_ascii_strings (out filename : string) (m : nat) :
  emits (writes_to out) (extract_ascii_strings out filename m).
Proof. unfold extract_ascii_strings, log. repeat write_step. Qed.

Lemma writes_resolve_pstore_params
      (out : string) (pa ps : option string) (auto : bool) :
  emits (writes_to out) (resolve_pstore_params pa ps auto).
Proof.
  apply (emits_weaken (P := no_write)); [|apply no_write_resolve_pstore_params].
  intros [| | | | | |] H; try exact I. discriminate.
Qed.

Lemma writes_extract_expdb (out : path) :
  emits (writes_to out) (extract_expdb out).
Proof.
  unfold extract_expdb, with_tempdir, extract_with_mtkclient, log.
  repeat first
    [ apply writes_run_command
    | apply writes_extract_ascii_strings
    | write_step ].
Qed.

Lemma writes_extract_pstore
      (out : path) (pa ps : option string) (auto da : bool) :
  emits (writes_to out) (extract_pstore out pa ps auto da).
Proof.
  unfold extract_pstore, with_tempdir, extract_with_mtkclient, log.
  repeat first
    [ apply writes_resolve_pstore_params
    | apply writes_run_command
    | apply writes_extract_ascii_strings
    | write_step ].
Qed.

Section Counts.

Variable W : Type.
Variable E : env W.

Lemma one_write_extract_ascii_strings
      (out filename : string) (m : nat) (w : W) :
  List.length (filter is_write (events E (extract_ascii_strings out filename m) w))
  <= 1.
Proof.
  unfold events, extract_ascii_strings. cbn [run].
  destruct (read_file E filename w) as [err|data]; cbn [run log snd].
  - cbn. lia.
  - destruct (write_file E out _ w) as [[err|] w1]; cbn; lia.
Qed.

Lemma console_no_write (t : trace) :
  Forall (fun e => console e = true) t -> filter is_write t = [].
Proof.
  intro H. apply filter_none. revert H. apply Forall_impl.
  intros [[]| | | | | |]; cbn; congruence.
Qed.

Lemma one_write_extract_expdb (out : path) (w : W) :
  List.length (filter is_write (events E (extract_expdb out) w)) <= 1.
Proof.
  destruct (extract_expdb_run E out w) as (tmp & r & w2 & t & Ht & _ & Hev).
  cbv zeta in Hev. rewrite Hev. cbn [filter is_write].
  rewrite filter_app, (console_no_write Ht). cbn [app].
  destruct (failed r); [cbn; lia|].
  rewrite filter_app, length_app. cbn [filter is_write List.length].
  pose proof (one_write_extract_ascii_strings out (tmp ++ "/expdb.bin") 4 w2).
  lia.
Qed.

Lemma one_write_extract_pstore
      (out : path) (pa ps : option string) (auto da : bool) (w : W) :
  List.length (filter is_write (events E (extract_pstore out pa ps auto da) w))
  <= 1.
Proof.
  destruct (extract_pstore_run E out pa ps auto da w)
    as (tmp & r & w2 & t & Ht & _ & Hev).
  cbv zeta in Hev. rewrite Hev. rewrite filter_app.
  rewrite (filter_none is_write (t := events E (resolve_pstore_params pa ps auto) w))
    by (apply emits_events, no_write_resolve_pstore_params).
  cbn [app filter is_write].
  rewrite filter_app, (console_no_write Ht). cbn [app].
  destruct (failed r); [cbn; lia|].
  rewrite filter_app, length_app. cbn [filter is_write List.length].
  pose proof (one_write_extract_ascii_strings out (tmp ++ "/pstore.bin") 4 w2).
  lia.
Qed.

Lemma main_dispatch (Path : string -> path) (ns : namespace) (w : W) :
  exists logs,
    Forall (fun e => exists l m, e = EvLog l m) logs /\
    events E (main Path ns) w = logs ++ events E (dispatch Path ns) w /\
    result E (main Path ns) w = result E (dispatch Path ns) w.
Proof.
  unfold main. fold (dispatch Path ns).
  destruct (auto_detect_pstore ns
            || dont_peek_via_da ns && negb (command ns =? "pstore")).
  - exists [EvLog WARNING ("[mtklogs] " ++ wrong_command_warning);
            EvLog INFO ("[mtklogs] " ++ "Output file: " ++ filename ns)].
    cbn [bind log]. unfold events, result. cbn [run].
    destruct (run E (dispatch Path ns) w) as [[b w1] t]. cbn [fst snd].
    split; [repeat constructor; eauto|split; reflexivity].
  - exists [EvLog INFO ("[mtklogs] " ++ "Output file: " ++ filename ns)].
    cbn [bind log]. unfold events, result. cbn [run].
    destruct (run E (dispatch Path ns) w) as [[b w1] t]. cbn [fst snd].
    split; [repeat constructor; eauto|split; reflexivity].
Qed.

End Counts.

(** *** The detection scan *)

Lemma key_hex_group (key : string) (a : atom ascii) :
  In a (key_hex key) -> grp a = true -> a = Atom is_hex 1 None true.
Proof.
  unfold key_hex, literal_i. rewrite !in_app_iff, !in_map_iff.
  intros [(c & <- & _)|[[<-|[]]|[(c & <- & _)|[<-|[]]]]] H;
    try discriminate. reflexivity.
Qed.

Lemma find_hex_literal (key decoded v : string) :
  find_hex key decoded = Some v -> hex_literal v.
Proof.
  unfold find_hex, search.
  destruct (search_from (key_hex key) 0 (list_ascii_of_string decoded))
    as [[[st n] g]|] eqn:Hs; [|discriminate].
  intros [= <-]. apply search_from_attempt in Hs. destruct Hs as (s' & Hm).
  assert (Hg : g <> None).
  { apply (match_here_group_set _ _ _ _ Hm).
    exists (Atom is_hex 1 None true). split; [|reflexivity].
    unfold key_hex. rewrite !in_app_iff. right. right. right. left. reflexivity. }
  destruct g as [h|]; [|contradiction]. clear Hg.
  apply match_here_group in Hm. destruct Hm as (a & Hin & Hgrp & Hlen & Hall).
  rewrite (key_hex_group key a Hin Hgrp) in Hlen, Hall. cbn in Hlen, Hall.
  exists h. split; [reflexivity|]. split; [|assumption].
  intros ->. cbn in Hlen. lia.
Qed.

(** One turn of the loop of [_find_pstore_config_in_data]. *)
Lemma find_loop_cons (b : bytes) (rest : list bytes) (a s : option string)
      (decoded : string) :
  decode_ascii b = Some decoded ->
  let a' := match find_hex "pstore_addr" decoded with
            | Some v => Some v
            | None => a
            end in
  let s' := match find_hex "pstore_size" decoded with
            | Some v => Some v
            | None => s
            end in
  let logs := match find_hex "pstore_addr" decoded with
              | Some v => [("Found pstore_addr: " ++ v)%string]
              | None => []
              end ++
              match find_hex "pstore_size" decoded with
              | Some v => [("Found pstore_size: " ++ v)%string]
              | None => []
              end in
  find_loop (b :: rest) a s =
  if both (a', s') then ((a', s'), logs)
  else (fst (find_loop rest a' s'), logs ++ snd (find_loop rest a' s')).
Proof.
  intro Hd. cbv zeta. unfold both. cbn [find_loop fst snd]. rewrite Hd.
  destruct (find_hex "pstore_addr" decoded) as [va|];
    destruct (find_hex "pstore_size" decoded) as [vs|];
    match goal with
    | |- context [if ?b then _ else _] => destruct b
    end;
    try reflexivity;
    match goal with
    | |- context [find_loop rest ?x ?y] =>
      destruct (find_loop rest x y) as [found logged]
    end;
    cbn [fst snd]; rewrite <- ?app_assoc; reflexivity.
Qed.

Lemma find_loop_hex (strings : list bytes) (a s : option string) :
  absent_or hex_literal a -> absent_or hex_literal s ->
  absent_or hex_literal (fst (fst (find_loop strings a s))) /\
  absent_or hex_literal (snd (fst (find_loop strings a s))).
Proof.
  revert a s. induction strings as [|b strings IH]; intros a s Ha Hs.
  - split; assumption.
  - destruct (decode_ascii b) as [decoded|] eqn:Hd.
    + rewrite (@find_loop_cons b strings a s decoded Hd). cbv zeta.
      assert (Ha' : absent_or hex_literal
                      match find_hex "pstore_addr" decoded with
                      | Some v => Some v
                      | None => a
                      end).
      { destruct (find_hex "pstore_addr" decoded) eqn:Hf; [|assumption].
        exact (find_hex_literal _ _ Hf). }
      assert (Hs' : absent_or hex_literal
                      match find_hex "pstore_size" decoded with
                      | Some v => Some v
                      | None => s
                      end).
      { destruct (find_hex "pstore_size" decoded) eqn:Hf; [|assumption].
        exact (find_hex_literal _ _ Hf). }
      destruct (both _); cbn [fst snd]; [split; assumption|].
      apply IH; assumption.
    + cbn [find_loop]. rewrite Hd. apply IH; assumption.
Qed.

Lemma defaults_hex : hex_literal PSTORE_ADDRESS /\ hex_literal PSTORE_SIZE.
Proof.
  split.
  - exists (list_ascii_of_string "48090000").
    split; [reflexivity|]. split; [discriminate|]. repeat constructor.
  - exists (list_ascii_of_string "e0000").
    split; [reflexivity|]. split; [discriminate|]. repeat constructor.
Qed.

(** *** Commands and results *)

Lemma no_popen_find (data : bytes) :
  emits no_popen (_find_pstore_config_in_data data).
Proof.
  unfold _find_pstore_config_in_data.
  destruct (find_pstore_config data) as [found logged].
  apply emits_bind; [apply emits_log_each; reflexivity|intro; constructor].
Qed.


Lemma dump_read_none (t : trace) :
  (forall p data, ~ In (EvRead p (inr data)) t) -> dump_read t = None.
Proof.
  induction t as [|e t IH]; intro H; [reflexivity|].
  assert (Ht : dump_read t = None).
  { apply IH. intros p data Hin. apply (H p data). right. exact Hin. }
  destruct e as [| | | | |p [err|data]|]; cbn [dump_read]; try exact Ht.
  exfalso. apply (H p data). left. reflexivity.
Qed.

Lemma no_read_no_dump (t : trace) :
  filter is_read t = [] -> forall p data, ~ In (EvRead p (inr data)) t.
Proof.
  intros H p data Hin.
  assert (Hf : In (EvRead p (inr data)) (filter is_read t))
    by (apply filter_In; split; [assumption|reflexivity]).
  rewrite H in Hf. destruct Hf.
Qed.

Section Outcomes.

Variable W : Type.
Variable E : env W.

Lemma detect_commands (w : W) :
  let tmp := fst (mktemp E w) in
  let cmd := mtkclient_cmd expdb (tmp ++ "/expdb.bin") None None true in
  let r := fst (popen E cmd (snd (mktemp E w))) in
  commands (events E detect_pstore_addr w) = [(cmd, r)] /\
  (failed r = true -> filter is_read (events E detect_pstore_addr w) = []).
Proof.
  cbv zeta. unfold detect_pstore_addr.
  rewrite events_with_tempdir.
  set (tmp := fst (mktemp E w)). set (w1 := snd (mktemp E w)).
  rewrite events_log, events_bind. unfold extract_with_mtkclient.
  set (cmd := mtkclient_cmd expdb (tmp ++ "/expdb.bin") None None true).
  destruct (run_command_commands E cmd w1) as (Hc & Hres & Hrd).
  rewrite Hres. set (r := fst (popen E cmd w1)) in *.
  set (w2 := world_after E (run_command cmd) w1).
  split.
  - cbn [commands]. rewrite commands_app. cbn [commands].
    rewrite commands_app, Hc, app_nil_r. cbn [app].
    rewrite commands_nil; [reflexivity|].
    apply emits_events. unfold log.
    repeat first [ apply no_popen_find | emits_step ].
  - intro Hf. rewrite Hf. cbn [negb].
    cbn [filter is_read]. rewrite filter_app. cbn [filter is_read].
    rewrite filter_app, Hrd. reflexivity.
Qed.

Lemma resolve_commands (pa ps : option string) (w : W) :
  commands (events E (resolve_pstore_params pa ps true) w) =
  commands (events E detect_pstore_addr w) /\
  filter is_read (events E (resolve_pstore_params pa ps true) w) =
  filter is_read (events E detect_pstore_addr w).
Proof.
  unfold resolve_pstore_params, events. rewrite !run_bind.
  destruct (run E detect_pstore_addr w) as [[[a s] w1] t].
  cbn [run bind log snd fst].
  rewrite !commands_app, !filter_app. cbn [commands filter is_read].
  rewrite !app_nil_r. split; reflexivity.
Qed.



End Outcomes.

End CoverageFacts.

(** ** Properties of the code beyond the claims *)

Module Coverage.

Import Regex IO LogUtil Props IOFacts RegexFacts LogUtilFacts CoverageFacts.
Local Open Scope string_scope.
Local Open Scope list_scope.


(** X2.  Whatever the minimum length [m] (0 included), every string the
    scan of [extract_ascii_strings] finds has at least [m] bytes, all of
    them in [0x20, 0x7E]; so [decode('ascii')] never fails, the
    [UnicodeDecodeError] branch is never taken, and the output has one
    line per match after the header. *)
Theorem found_strings_decode (filename : string) (m : nat) (data : bytes) :
  Forall (fun b => m <= List.length b /\ Forall (fun c => printable c = true) b)
         (ascii_strings m data) /\
  decode_all (ascii_strings m data) =
  map string_of_list_byte (ascii_strings m data) /\
  List.length (output_lines filename m data) =
  S (List.length (ascii_strings m data)).
Proof.
  assert (H : Forall (fun b => m <= List.length b /\
                               Forall (fun c => printable c = true) b)
                     (ascii_strings m data)).
  { apply Forall_forall. intros b Hb. exact (ascii_strings_sound _ _ _ Hb). }
  assert (Hd : decode_all (ascii_strings m data) =
               map string_of_list_byte (ascii_strings m data)).
  { apply decode_all_printable. revert H. apply Forall_impl. intros b [_ Hb].
    exact Hb. }
  repeat split; [exact H|exact Hd|].
  unfold output_lines. cbn [List.length]. rewrite Hd, length_map. reflexivity.
Qed.

(** X3.  When the dump has no run of [m] printable bytes (an empty dump,
    one shorter than [m], one of short runs only), the text written is
    the header line alone, without a newline after it. *)
Theorem no_strings_header_only (filename : string) (m : nat) (data : bytes) :
  1 <= m ->
  (forall st n, maximal_run printable data st n -> n < m) ->
  join newline (output_lines filename m data) = header filename.
Proof.
  intros Hm Hnone. rewrite output_lines_runs by assumption.
  destruct (spans (printable_run m) data) as [|[st n] rest] eqn:Hsp;
    [reflexivity|].
  assert (Hin : In (st, n) (spans (printable_run m) data))
    by (rewrite Hsp; left; reflexivity).
  apply spans_maximal in Hin; [|assumption].
  destruct Hin as [Hrun Hlen]. apply Hnone in Hrun. lia.
Qed.

(** X4.  [extract_ascii_strings] runs no command and touches no
    temporary directory.  It writes at most once, only to the output
    path, only after the input was read, and then the header and the
    strings of that input.  When the input cannot be read it logs one
    error naming the input file and leaves the world as it was. *)
Theorem extract_ascii_strings_footprint
        (W : Type) (E : env W) (w : W) (out : path) (filename : string) (m : nat) :
  let t := events E (extract_ascii_strings out filename m) w in
  commands t = [] /\
  filter is_temp t = [] /\
  List.length (filter is_write t) <= 1 /\
  (forall p c r, In (EvWrite p c r) t ->
                 p = out /\
                 exists data, read_file E filename w = inr data /\
                              c = join newline (output_lines filename m data)) /\
  (forall err, read_file E filename w = inl err ->
               run E (extract_ascii_strings out filename m) w =
               (tt, w,
                [EvRead filename (inl err);
                 EvLog ERROR ("[mtklogs] Error processing file " ++ filename
                                ++ ": " ++ err)])).
Proof.
  cbv zeta. unfold events, extract_ascii_strings. cbn [run].
  destruct (read_file E filename w) as [err|data]; cbn [run log snd].
  - refine (conj eq_refl (conj eq_refl (conj _ (conj _ _)))).
    + cbn. lia.
    + intros p c r [H|[H|[]]]; discriminate.
    + intros err' [= <-]. reflexivity.
  - destruct (write_file E out (join newline (output_lines filename m data)) w)
      as [[err|] w1]; cbn [run log snd];
      (refine (conj eq_refl (conj eq_refl (conj _ (conj _ _))));
       [ cbn; lia
       | intros p c r [H|[H|[H|[]]]]; try discriminate;
         injection H as <- <- _; split; [reflexivity|];
         exists data; split; reflexivity
       | intros err' H; discriminate ]).
Qed.

(** X5.  Every temporary directory a run of [main] creates is removed
    again, also when the command fails or a file cannot be read or
    written, and before the next one is created: [expdb] uses one
    directory, [pstore] one, or two with auto-detect. *)
Theorem temporary_directories_removed
        (W : Type) (E : env W) (w : W) (Path : string -> path) (ns : namespace) :
  exists dirs,
    filter is_temp (events E (main Path ns) w) = lifetimes dirs /\
    List.length dirs =
    if command ns =? "expdb" then 1
    else if command ns =? "pstore"
         then (if auto_detect_pstore ns then 2 else 1)
         else 0.
Proof.
  assert (Hmain : filter is_temp (events E (main Path ns) w) =
                  filter is_temp
                    (events E
                       (if command ns =? "expdb"
                        then extract_expdb (Path (filename ns))
                        else if command ns =? "pstore"
                             then extract_pstore (Path (filename ns))
                                    (pstore_address ns) (pstore_size ns)
                                    (auto_detect_pstore ns) (dont_peek_via_da ns)
                             else Ret false) w)).
  { unfold main.
    destruct (auto_detect_pstore ns
              || dont_peek_via_da ns && negb (command ns =? "pstore"));
      rewrite ?events_log; cbn [bind]; rewrite ?events_log; reflexivity. }
  rewrite Hmain.
  destruct (command ns =? "expdb").
  - exists [fst (mktemp E w)]. split; [apply temp_extract_expdb|reflexivity].
  - destruct (command ns =? "pstore").
    + apply temp_extract_pstore.
    + exists []. split; reflexivity.
Qed.

(** X6.  In every run of [main], each logged line starts with
    [[mtklogs] ], each printed line with [[mtkclient] ], and each command
    that is launched starts with [python mtkclient/mtk.py ]: the script
    runs nothing but mtkclient. *)
Theorem every_line_tagged
        (W : Type) (E : env W) (w : W) (Path : string -> path) (ns : namespace) :
  Forall tagged (events E (main Path ns) w).
Proof.
  apply emits_events. unfold main, log.
  repeat first
    [ apply tagged_extract_expdb
    | apply tagged_extract_pstore
    | tag_step ].
Qed.

(** X7.  [main] writes to no file but the output file named on the
    command line, and to that one at most once in a run. *)
Theorem only_the_output_file_is_written
        (W : Type) (E : env W) (w : W) (Path : string -> path) (ns : namespace) :
  let t := events E (main Path ns) w in
  Forall (writes_to (Path (filename ns))) t /\
  List.length (filter is_write t) <= 1.
Proof.
  cbv zeta. split.
  - apply emits_events. unfold main, log.
    repeat first
      [ apply writes_extract_expdb | apply writes_extract_pstore | write_step ].
  - destruct (main_dispatch E Path ns w) as (logs & Hlogs & -> & _).
    rewrite filter_app, filter_none.
    + cbn [app]. unfold dispatch.
      destruct (command ns =? "expdb"); [apply one_write_extract_expdb|].
      destruct (command ns =? "pstore"); [apply one_write_extract_pstore|].
      cbn. lia.
    + revert Hlogs. apply Forall_impl. intros e (l & m & ->). reflexivity.
Qed.


(** X9.  With auto-detect, parameter resolution runs the partition read
    once.  When that command fails no file is read, and whenever no dump
    is obtained (the command failed, or the file could not be read) the
    result is the one resolution gives without auto-detect: override or
    default. *)
Theorem detection_failure_falls_back
        (W : Type) (E : env W) (w : W) (pa ps : option string) :
  let t := events E (resolve_pstore_params pa ps true) w in
  let same := result E (resolve_pstore_params pa ps true) w =
              result E (resolve_pstore_params pa ps false) w in
  exists tmp r,
    commands t = [(mtkclient_cmd expdb (tmp ++ "/expdb.bin") None None true, r)] /\
    (failed r = true -> filter is_read t = [] /\ same) /\
    ((forall p data, ~ In (EvRead p (inr data)) t) -> same).
Proof.
  cbv zeta.
  destruct (resolve_commands E pa ps w) as [Hc Hrd].
  destruct (detect_commands E w) as [Hd Hfail]. cbv zeta in Hd, Hfail.
  assert (Hsame : (forall p data,
                      ~ In (EvRead p (inr data))
                           (events E (resolve_pstore_params pa ps true) w)) ->
                  result E (resolve_pstore_params pa ps true) w =
                  result E (resolve_pstore_params pa ps false) w).
  { intro Hnone. rewrite (resolve_auto_result E w pa ps).
    unfold detected. rewrite (dump_read_none _ Hnone). cbn [fst snd].
    unfold result. rewrite resolve_plain_run. reflexivity. }
  do 2 eexists. split; [rewrite Hc; exact Hd|]. split.
  - intro Hf. rewrite Hrd. specialize (Hfail Hf). split; [exact Hfail|].
    apply Hsame. apply no_read_no_dump. rewrite Hrd. exact Hfail.
  - exact Hsame.
Qed.

(** X10.  Each value the detection scan finds is [0x] followed by at
    least one hexadecimal digit, wherever in the dump it stood and
    however the key was written; so [detect_pstore_addr] always returns
    two such literals, found or default. *)
Theorem detected_values_are_hex_literals :
  (forall data : bytes,
      absent_or hex_literal (fst (fst (find_pstore_config data))) /\
      absent_or hex_literal (snd (fst (find_pstore_config data)))) /\
  (forall (W : Type) (E : env W) (w : W),
      exists address size,
        result E detect_pstore_addr w = (Some address, Some size) /\
        hex_literal address /\ hex_literal size).
Proof.
  assert (Hfound : forall data : bytes,
             absent_or hex_literal (fst (fst (find_pstore_config data))) /\
             absent_or hex_literal (snd (fst (find_pstore_config data)))).
  { intro data. apply find_loop_hex; exact I. }
  split; [exact Hfound|].
  intros W E w. rewrite detect_result.
  set (t := events E detect_pstore_addr w).
  assert (Hd : absent_or hex_literal (fst (detected t)) /\
               absent_or hex_literal (snd (detected t))).
  { unfold detected. destruct (dump_read t) as [data|];
      [apply Hfound|split; exact I]. }
  destruct Hd as [Ha Hs]. destruct defaults_hex as [Hda Hds].
  destruct (fst (detected t)) as [a|]; destruct (snd (detected t)) as [s|];
    cbn [precedence]; do 2 eexists; (split; [reflexivity|]); split; assumption.
Qed.

(** X11.  The detection loop stops at the first string after which both
    values are known: the strings behind it change neither the values
    nor what is logged. *)
Theorem detection_stops_when_both_found
        (before : list bytes) (s : bytes) (behind : list bytes)
        (addr size : option string) :
  decode_ascii s <> None ->
  both (fst (find_loop (before ++ [s]) addr size)) = true ->
  find_loop (before ++ s :: behind) addr size =
  find_loop (before ++ [s]) addr size.
Proof.
  intro Hs. revert addr size.
  induction before as [|b before IH]; intros addr size Hboth.
  - destruct (decode_ascii s) as [decoded|] eqn:Hd; [|contradiction].
    cbn [app] in *.
    rewrite (@find_loop_cons s behind addr size decoded Hd).
    rewrite (@find_loop_cons s [] addr size decoded Hd) in Hboth |- *.
    cbv zeta in *.
    destruct (both (_, _)) eqn:Hb; [reflexivity|].
    cbn [find_loop fst snd] in Hboth. congruence.
  - cbn [app] in *.
    destruct (decode_ascii b) as [decoded|] eqn:Hd.
    + rewrite (@find_loop_cons b (before ++ s :: behind) addr size decoded Hd).
      rewrite (@find_loop_cons b (before ++ [s]) addr size decoded Hd) in Hboth |- *.
      cbv zeta in *.
      destruct (both (_, _)) eqn:Hb; [reflexivity|].
      cbn [fst] in Hboth. rewrite (IH _ _ Hboth). reflexivity.
    + cbn [find_loop] in *. rewrite Hd in *. apply IH. exact Hboth.
Qed.

Lemma detection_stops_when_both_found_example :
  decode_ascii (text "pstore_size:0x2") <> None /\
  both (fst (find_loop ([text "pstore_addr:0x1"] ++ [text "pstore_size:0x2"])
                       None None)) = true /\
  find_loop ([text "pstore_addr:0x1"] ++ text "pstore_size:0x2"
               :: [text "pstore_addr:0x3"; text "pstore_size:0x4"]) None None =
  ((Some "0x1", Some "0x2"),
   ["Found pstore_addr: 0x1"; "Found pstore_size: 0x2"]%string).
Proof.
  assert (H1 : decode_ascii (text "pstore_size:0x2") <> None)
    by (vm_compute; discriminate).
  assert (H2 : both (fst (find_loop ([text "pstore_addr:0x1"]
                                       ++ [text "pstore_size:0x2"])
                                    None None)) = true)
    by reflexivity.
  split; [exact H1|]. split; [exact H2|].
  rewrite (@detection_stops_when_both_found
             [text "pstore_addr:0x1"] (text "pstore_size:0x2")
             [text "pstore_addr:0x3"; text "pstore_size:0x4"] None None H1 H2).
  reflexivity.
Defined.

Lemma no_strings_header_only_example :
  1 <= 4 /\
  (forall st n, maximal_run printable [] st n -> n < 4) /\
  join newline (output_lines "/tmp/t/expdb.bin" 4 []) =
  "=== ASCII Strings from /tmp/t/expdb.bin ===".
Proof.
  assert (H : forall st n, maximal_run printable [] st n -> n < 4).
  { intros st n (Hb & _). simpl in Hb. lia. }
  split; [lia|]. split; [exact H|].
  exact (@no_strings_header_only "/tmp/t/expdb.bin" 4 []
           (le_S _ _ (le_S _ _ (le_S _ _ (le_n 1)))) H).
Defined.

End Coverage.
